(** * topa-survey: the pairing scheduler, tie resolution, history merge and
    vote identifiers of [frontend/src/App.tsx]

    The development embeds the pure core of the survey front end:
    [hash32], [mulberry32], [stableShuffle], [resolveTiePreferred],
    [nextPair], [historyKey], [mergeHistory] and [makeVoteId].

    Conventions of the embedding.
    - A JavaScript string is a [string]; its characters are the UTF-16 code
      units below 256, so [charCodeAt] is the code of the [ascii] character.
    - Numbers that the code keeps integral (trial ids, array indices, the
      32-bit words of the generator) are elements of [Z] or [nat]; the
      conversions [ToInt32] and [ToUint32] of the bit operators are written
      out.
    - [mulberry32] returns the double [n / 2^32] for a 32-bit [n]; the model
      returns the numerator [n].  [rnd() < 0.5] is then [n < 2^31], and
      [Math.floor(rnd() * k)] is [n * k / 2^32], which is what the double
      product gives whenever [n * k < 2^53] (every [k] below [2^21]).
    - The closure returned by [mulberry32] captures the mutable [seed]; the
      model passes that state explicitly: one call maps the state to the
      drawn value and the next state.  The state grows by [0x6d2b79f5] per
      call without wrapping, as the double does; it stays an exact integer
      for the first [2^22] calls of a closure.
    - A row of the history is a record; the fields that the code guards
      with [??] are optional. *)

From Stdlib Require Import ZArith Lia Ascii.
From stdpp Require Import base numbers option list strings gmap sorting pretty.

Local Open Scope Z_scope.

(** ** JavaScript number and string primitives *)

(** [x >>> 0] *)
Definition to_uint32 (z : Z) : Z := z mod 2 ^ 32.

(** [x | 0] *)
Definition to_int32 (z : Z) : Z := (z + 2 ^ 31) mod 2 ^ 32 - 2 ^ 31.

(** [Math.imul(a, b)] *)
Definition imul (a b : Z) : Z := to_int32 (to_int32 a * to_int32 b).

(** [a ^ b] *)
Definition xor32 (a b : Z) : Z := Z.lxor (to_int32 a) (to_int32 b).

(** [a | b] *)
Definition or32 (a b : Z) : Z := Z.lor (to_int32 a) (to_int32 b).

(** [a >>> n] *)
Definition ushr (a n : Z) : Z := Z.shiftr (to_uint32 a) n.

(** [s.charCodeAt(i)] for the character [c] at position [i] *)
Definition char_code (c : ascii) : Z := Z.of_N (N_of_ascii c).

(** [Math.floor(v * k)] for the double [v = n / 2^32] *)
Definition floor_mul (n : Z) (k : nat) : nat := Z.to_nat (n * Z.of_nat k / 2 ^ 32).

(** [String(n)] and the template substitution of an integral number: its
    decimal numeral, with a minus sign when negative (what JavaScript
    prints for an integer of magnitude below [10^21]). *)
Definition number_to_string (n : Z) : string := pretty n.

(** White space of the regular expression class [\s] and of [trim], among
    the code units below 256: TAB, LF, VT, FF, CR, SPACE and NBSP. *)
Definition is_space (c : ascii) : bool :=
  let n := N_of_ascii c in
  ((9 <=? n) && (n <=? 13) || (n =? 32) || (n =? 160))%N.

(** The class [[a-zA-Z0-9_\-]] *)
Definition is_id_char (c : ascii) : bool :=
  let n := N_of_ascii c in
  ((97 <=? n) && (n <=? 122) || (65 <=? n) && (n <=? 90)
   || (48 <=? n) && (n <=? 57) || (n =? 95) || (n =? 45))%N.

(** One code unit of [toLowerCase]: A-Z, and the Latin-1 capitals
    U+00C0..U+00DE except the multiplication sign U+00D7. *)
Definition lower_char (c : ascii) : ascii :=
  let n := N_of_ascii c in
  if ((65 <=? n) && (n <=? 90)
      || (192 <=? n) && (n <=? 222) && negb (n =? 215))%N
  then ascii_of_N (n + 32) else c.

Fixpoint toLowerCase (s : string) : string :=
  match s with
  | EmptyString => EmptyString
  | String c s' => String (lower_char c) (toLowerCase s')
  end.

Fixpoint trimStart (s : string) : string :=
  match s with
  | EmptyString => EmptyString
  | String c s' => if is_space c then trimStart s' else s
  end.

Fixpoint trimEnd (s : string) : string :=
  match s with
  | EmptyString => EmptyString
  | String c s' =>
      match trimEnd s' with
      | EmptyString => if is_space c then EmptyString else String c EmptyString
      | t => String c t
      end
  end.

(** [s.trim()] *)
Definition trim (s : string) : string := trimEnd (trimStart s).

(** [s.replace(/\s+/g, "_")]: [in_run] tells that the previous character
    belonged to the white-space run being replaced. *)
Fixpoint replace_spaces (in_run : bool) (s : string) : string :=
  match s with
  | EmptyString => EmptyString
  | String c s' =>
      if is_space c
      then if in_run then replace_spaces true s'
           else String "_" (replace_spaces true s')
      else String c (replace_spaces false s')
  end.

(** [s.replace(/[^a-zA-Z0-9_\-]/g, "")] *)
Fixpoint strip_non_id (s : string) : string :=
  match s with
  | EmptyString => EmptyString
  | String c s' =>
      if is_id_char c then String c (strip_non_id s') else strip_non_id s'
  end.

(** Every character of [s] satisfies [p]. *)
Fixpoint string_forall (p : ascii → bool) (s : string) : bool :=
  match s with
  | EmptyString => true
  | String c s' => p c && string_forall p s'
  end.

Definition not_underscore (c : ascii) : bool :=
  negb (bool_decide (c = "_"%char)).

(** ** Arrays *)

(** [arr.sort(cmp)]: since ES2019 the sort is stable, so for a consistent
    comparator the result does not depend on the engine's algorithm; it is
    the stable insertion sort. *)
Fixpoint sort_insert {A} (cmp : A → A → Z) (x : A) (l : list A) : list A :=
  match l with
  | [] => [x]
  | y :: l' => if cmp x y <=? 0 then x :: l else y :: sort_insert cmp x l'
  end.

Definition array_sort {A} (cmp : A → A → Z) (l : list A) : list A :=
  foldr (sort_insert cmp) [] l.

(** [[a[i], a[j]] = [a[j], a[i]]], for indices inside the array (the only
    ones [stableShuffle] produces, see [shuffle_swap_defined]; an index
    outside would make JavaScript extend the array). *)
Definition swap {T} (a : list T) (i j : nat) : list T :=
  match a !! i, a !! j with
  | Some x, Some y => <[j := x]> (<[i := y]> a)
  | _, _ => a
  end.

(** ** Deterministic generator *)

Fixpoint hash32_loop (s : string) (h : Z) : Z :=
  match s with
  | EmptyString => h
  | String c s' => hash32_loop s' (imul (xor32 h (char_code c)) 16777619)
  end.

Definition hash32 (s : string) : Z := to_uint32 (hash32_loop s 2166136261).

(** One call of the closure made by [mulberry32(seed)]: from the captured
    [seed] to the numerator of the returned double and the updated [seed]. *)
Definition mulberry32 (seed : Z) : Z * Z :=
  let seed' := seed + 0x6d2b79f5 in
  let t := seed' in
  let t := imul (xor32 t (ushr t 15)) (or32 t 1) in
  let t := xor32 t (t + imul (xor32 t (ushr t 7)) (or32 t 61)) in
  (to_uint32 (xor32 t (ushr t 14)), seed').

(** The loop [for (let i = a.length - 1; i > 0; i--)] of [stableShuffle]. *)
Fixpoint shuffle_loop {T} (i : nat) (a : list T) (seed : Z) : list T :=
  match i with
  | O => a
  | S i' =>
      let '(v, seed') := mulberry32 seed in
      let j := floor_mul v (i + 1) in
      shuffle_loop i' (swap a i j) seed'
  end.

Definition stableShuffle {T} (arr : list T) (seedStr : string) : list T :=
  shuffle_loop (length arr - 1) arr (hash32 seedStr).

(** ** Vote rows *)

(** A row of the history.  The fields that the code reads through [??]
    may be absent ([None] stands for [undefined] and [null]). *)
Record Row := mkRow {
  vote_id : option string;
  participant_id : option string;
  component : option string;
  trial_id : option Z;
  left_method_id : string;
  right_method_id : string;
  preferred : option string;
  resolved_preferred : option string;
  feedback : option string;
}.

Global Instance Row_eq_dec : EqDecision Row.
Proof. solve_decision. Defined.

(** ** History merge *)

Definition historyKey (r : Row) : string :=
  default "" (participant_id r) +:+ "::" +:+
  default "" (component r) +:+ "::" +:+
  from_option number_to_string "" (trial_id r).

(** A [Map<string, Row>]: the entries in insertion order. *)
Definition RowMap := list (string * Row).

(** [m.has(k)] *)
Definition map_has (m : RowMap) (k : string) : bool :=
  bool_decide (k ∈ m.*1).

(** [m.set(k, v)]: an existing key keeps its position and gets the new
    value, a new key goes to the end. *)
Fixpoint map_set (m : RowMap) (k : string) (v : Row) : RowMap :=
  match m with
  | [] => [(k, v)]
  | e :: m' => if decide (e.1 = k) then (k, v) :: m' else e :: map_set m' k v
  end.

(** [Array.from(m.values())] *)
Definition map_values (m : RowMap) : list Row := m.*2.

(** The comparator of [mergeHistory]. *)
Definition merge_cmp (a b : Row) : Z :=
  let ca := default "" (component a) in
  let cb := default "" (component b) in
  if String.ltb ca cb then -1
  else if String.ltb cb ca then 1
  else default 0 (trial_id a) - default 0 (trial_id b).

Definition merge_remote (remoteRows : list Row) : RowMap :=
  fold_left (λ m r, map_set m (historyKey r) r) remoteRows [].

Definition merge_local (localRows : list Row) (m : RowMap) : RowMap :=
  fold_left
    (λ m r, let k := historyKey r in if map_has m k then m else map_set m k r)
    localRows m.

Definition mergeHistory (localRows remoteRows : list Row) : list Row :=
  let m := merge_remote remoteRows in
  let m := merge_local localRows m in
  array_sort merge_cmp (map_values m).

(** ** Vote identifiers *)

(** The chain [String(component || "").trim().replace(..).replace(..)]; on a
    string [String(component || "")] is the string itself. *)
Definition sanitize_component (component : string) : string :=
  strip_non_id (replace_spaces false (trim component)).

Definition makeVoteId (pid component : string) (trialId : Z) : string :=
  pid +:+ "__" +:+ sanitize_component component +:+ "__" +:+
  number_to_string trialId.

(** ** Tie resolution *)

Inductive Side := Left | Right.

Global Instance Side_eq_dec : EqDecision Side.
Proof. solve_decision. Defined.

Definition TOPA_FAVORITES : gset string := {[ "G"; "H"; "I" ]}.

Definition TOPA_FAVORITE_ORDER : gmap string Z :=
  <["H" := 0]> (<["I" := 1]> (<["G" := 2]> ∅)).

Definition tie_seed (pid component : string) (trialId : Z) (l r : string)
  : string :=
  pid +:+ "::" +:+ component +:+ "::" +:+ number_to_string trialId +:+
  "::tie::" +:+ l +:+ "::" +:+ r.

(** On strings [String(leftId || "")] and [String(rightId || "")] are the
    arguments themselves.  The table [TOPA_FAVORITE_ORDER] is only read for
    ids of [TOPA_FAVORITES]. *)
Definition resolveTiePreferred
    (pid component : string) (trialId : Z) (leftId rightId : string) : Side :=
  let l := leftId in
  let r := rightId in
  let lFav := bool_decide (l ∈ TOPA_FAVORITES) in
  let rFav := bool_decide (r ∈ TOPA_FAVORITES) in
  if lFav && rFav then
    let lr := default 999 (TOPA_FAVORITE_ORDER !! l) in
    let rr := default 999 (TOPA_FAVORITE_ORDER !! r) in
    if lr <=? rr then Left else Right
  else if lFav && negb rFav then Left
  else if negb lFav && rFav then Right
  else
    let '(v, _) := mulberry32 (hash32 (tie_seed pid component trialId l r)) in
    if v <? 2 ^ 31 then Left else Right.

(** ** Pairing scheduler *)

(** The rows of [history] for the participant and the component, sorted by
    trial id. *)
(** [r.participant_id === pid && r.component === component] *)
Definition row_matches (pid comp : string) (r : Row) : Prop :=
  participant_id r = Some pid ∧ component r = Some comp.

Global Instance row_matches_dec pid comp r : Decision (row_matches pid comp r).
Proof. unfold row_matches. apply _. Defined.

(** The comparator of the sort in [nextPair]. *)
Definition trial_cmp (a b : Row) : Z :=
  default 0 (trial_id a) - default 0 (trial_id b).

Definition rows_of (pid comp : string) (history : list Row) : list Row :=
  array_sort trial_cmp (filter (row_matches pid comp) history).

(** [last.resolved_preferred ?? last.preferred ?? ""] *)
Definition stored_outcome (last : Row) : string :=
  match resolved_preferred last with
  | Some p => p
  | None => default "" (preferred last)
  end.

(** [String(last.resolved_preferred ?? last.preferred ?? "").toLowerCase()] *)
Definition pref_of (last : Row) : string := toLowerCase (stored_outcome last).

(** The champion that [nextPair] derives from the last row; [n] is
    [rows.length]. *)
Definition champion_of (pid comp : string) (n : nat) (last : Row) : string :=
  let pref := pref_of last in
  if decide (pref = "left") then left_method_id last
  else if decide (pref = "right") then right_method_id last
  else if decide (pref = "tie") then
    let resolved :=
      resolveTiePreferred pid comp
        (default (Z.of_nat n) (trial_id last))
        (left_method_id last) (right_method_id last) in
    if decide (resolved = Left) then left_method_id last
    else right_method_id last
  else left_method_id last.

(** The set [appeared] after the loop over [rows]. *)
Definition appeared_of (rows : list Row) : gset string :=
  fold_left (λ s r, {[ right_method_id r ]} ∪ ({[ left_method_id r ]} ∪ s))
    rows ∅.

Definition challenger_seed (pid comp : string) (n : nat) : string :=
  pid +:+ "::" +:+ comp +:+ "::" +:+ number_to_string (Z.of_nat n).

Definition nextPair
    (pid comp : string) (methodIds : list string) (history : list Row)
  : option (string * string) :=
  if bool_decide (pid = "") || (length methodIds <? 2)%nat then None
  else
    let rows := rows_of pid comp history in
    match last rows with
    | None =>
        let shuffled := stableShuffle methodIds (pid +:+ "::" +:+ comp) in
        let first := shuffled !!! 0%nat in
        let second := shuffled !!! 1%nat in
        Some (first, second)
    | Some last =>
        let champion := champion_of pid comp (length rows) last in
        let appeared := appeared_of rows in
        let unseen :=
          filter (λ m, (m ∉ appeared) ∧ (m ≠ champion)) methodIds in
        if (length unseen =? 0)%nat then None
        else
          let '(v, _) :=
            mulberry32 (hash32 (challenger_seed pid comp (size appeared))) in
          let challenger := unseen !!! floor_mul v (length unseen) in
          Some (champion, challenger)
    end.

(** ** The same functions with the generator closures in a store

    [mulberry32(seed)] makes a closure that owns a mutable copy of [seed];
    every call of the closure updates it.  To state that no call of
    [resolveTiePreferred] or [nextPair] depends on, or disturbs, a generator
    made by another call, the closures alive in the program are kept in a
    store: the captured seeds in order of creation.  The functions below are
    the functions above, written against that store. *)

Abbreviation Store := (list Z).

Definition Eff (A : Type) : Type := Store → A * Store.

Global Instance eff_ret : MRet Eff := λ A x σ, (x, σ).

Global Instance eff_bind : MBind Eff :=
  λ A B k c σ, let '(x, σ') := c σ in k x σ'.

(** [const rnd = mulberry32(seed)]: the address of the new closure. *)
Definition new_rng (seed : Z) : Eff nat := λ σ, (length σ, σ ++ [seed]).

(** [rnd()] for the closure at address [g]. *)
Definition call_rng (g : nat) : Eff Z :=
  λ σ, let '(v, seed') := mulberry32 (σ !!! g) in (v, <[g := seed']> σ).

Fixpoint shuffle_loop_st {T} (i : nat) (a : list T) (g : nat)
  : Eff (list T) :=
  match i with
  | O => mret a
  | S i' =>
      v ← call_rng g ;
      shuffle_loop_st i' (swap a i (floor_mul v (i + 1))) g
  end.

Definition stableShuffle_st {T} (arr : list T) (seedStr : string)
  : Eff (list T) :=
  rnd ← new_rng (hash32 seedStr) ;
  shuffle_loop_st (length arr - 1) arr rnd.

Definition resolveTiePreferred_st
    (pid component : string) (trialId : Z) (leftId rightId : string)
  : Eff Side :=
  let l := leftId in
  let r := rightId in
  let lFav := bool_decide (l ∈ TOPA_FAVORITES) in
  let rFav := bool_decide (r ∈ TOPA_FAVORITES) in
  if lFav && rFav then
    let lr := default 999 (TOPA_FAVORITE_ORDER !! l) in
    let rr := default 999 (TOPA_FAVORITE_ORDER !! r) in
    mret (if lr <=? rr then Left else Right)
  else if lFav && negb rFav then mret Left
  else if negb lFav && rFav then mret Right
  else
    rnd ← new_rng (hash32 (tie_seed pid component trialId l r)) ;
    v ← call_rng rnd ;
    mret (if v <? 2 ^ 31 then Left else Right).

Definition champion_of_st (pid comp : string) (n : nat) (last : Row)
  : Eff string :=
  let pref := pref_of last in
  if decide (pref = "left") then mret (left_method_id last)
  else if decide (pref = "right") then mret (right_method_id last)
  else if decide (pref = "tie") then
    resolved ←
      resolveTiePreferred_st pid comp
        (default (Z.of_nat n) (trial_id last))
        (left_method_id last) (right_method_id last) ;
    mret (if decide (resolved = Left) then left_method_id last
             else right_method_id last)
  else mret (left_method_id last).

Definition nextPair_st
    (pid comp : string) (methodIds : list string) (history : list Row)
  : Eff (option (string * string)) :=
  if bool_decide (pid = "") || (length methodIds <? 2)%nat then mret None
  else
    let rows := rows_of pid comp history in
    match last rows with
    | None =>
        shuffled ← stableShuffle_st methodIds (pid +:+ "::" +:+ comp) ;
        let first := shuffled !!! 0%nat in
        let second := shuffled !!! 1%nat in
        mret (Some (first, second))
    | Some last =>
        champion ← champion_of_st pid comp (length rows) last ;
        let appeared := appeared_of rows in
        let unseen :=
          filter (λ m, (m ∉ appeared) ∧ (m ≠ champion)) methodIds in
        if (length unseen =? 0)%nat then mret None
        else
          rnd ← new_rng
                  (hash32 (challenger_seed pid comp (size appeared))) ;
          v ← call_rng rnd ;
          let challenger := unseen !!! floor_mul v (length unseen) in
          mret (Some (champion, challenger))
    end.

(** ** Notions used to state the properties *)

(** Membership in the favoured set and the rank [H < I < G] within it. *)
Definition favored (m : string) : Prop := m = "G" ∨ m = "H" ∨ m = "I".

Definition favorite_rank (m : string) : Z :=
  if decide (m = "H") then 0
  else if decide (m = "I") then 1
  else if decide (m = "G") then 2
  else 999.

(** The method on a side of a compared pair. *)
Definition method_on (s : Side) (leftId rightId : string) : string :=
  match s with Left => leftId | Right => rightId end.

(** The identity of a row as a tuple of its three fields. *)
Definition row_tuple (r : Row) : option string * option string * option Z :=
  (participant_id r, component r, trial_id r).

Definition not_colon (c : ascii) : bool :=
  negb (bool_decide (c = ":"%char)).

(** A row as the program stores and fetches it: the three fields of the
    key are present, and the participant id has no colon (the worker
    issues the ids [P00001], [P00002], ...). *)
Definition keyed_row (r : Row) : Prop :=
  (∃ p, participant_id r = Some p ∧ string_forall not_colon p = true) ∧
  is_Some (component r) ∧ is_Some (trial_id r).

(** The order of the merged log: by component, lexicographically on the
    code units, then by trial id. *)
Definition row_le (a b : Row) : Prop :=
  let ca := default "" (component a) in
  let cb := default "" (component b) in
  (String.le ca cb ∧ ca ≠ cb) ∨
  (ca = cb ∧ default 0 (trial_id a) ≤ default 0 (trial_id b)).

(** Ascending trial ids, an absent one counting as 0. *)
Definition trial_le (a b : Row) : Prop :=
  default 0 (trial_id a) ≤ default 0 (trial_id b).

(** A row that records a vote on the pair [(l, r)] for the participant and
    the component, with a resolved outcome that names one of the two sides;
    the trial id, the raw preference and the other fields are free. *)
Definition vote_for (pid comp l r : string) (row : Row) : Prop :=
  participant_id row = Some pid ∧
  component row = Some comp ∧
  left_method_id row = l ∧
  right_method_id row = r ∧
  (resolved_preferred row = Some "left" ∨
   resolved_preferred row = Some "right").

(** [tournament pid comp ms h k]: the history [h] is reached from a history
    without rows for [(pid, comp)] by [k] rounds, each of which calls
    [nextPair], gets a pair and appends a vote on that pair. *)
Inductive tournament (pid comp : string) (ms : list string)
  : list Row → nat → Prop :=
  | tournament_start h :
      Forall (λ r, ¬ row_matches pid comp r) h →
      tournament pid comp ms h 0
  | tournament_round h k l r row :
      tournament pid comp ms h k →
      nextPair pid comp ms h = Some (l, r) →
      vote_for pid comp l r row →
      tournament pid comp ms (h ++ [row]) (S k).

(** ** Casting a vote ([SurveyPage])

    The survey page keeps the history in its state, shows the pair that
    [nextPair] returns and, on an answer, appends a vote row.  The row below
    holds the fields of the vote object that [Row] has; the time stamp, the
    user agent and the page address that the object also carries are read by
    none of the functions modelled here. *)

(** The answer of the participant: ["left" | "right" | "tie"]. *)
Inductive Preferred := PrefLeft | PrefRight | PrefTie.

Definition preferred_string (p : Preferred) : string :=
  match p with
  | PrefLeft => "left"
  | PrefRight => "right"
  | PrefTie => "tie"
  end.

Definition side_string (s : Side) : string :=
  match s with Left => "left" | Right => "right" end.

(** [hasEnoughMethods && activeComponent ? nextPair(..) : null] *)
Definition current_pair
    (pid comp : string) (validMethodIds : list string) (history : list Row)
  : option (string * string) :=
  if (2 <=? length validMethodIds)%nat && negb (bool_decide (comp = ""))
  then nextPair pid comp validMethodIds history
  else None.

(** [history.filter(..).reduce((mx, r) => Math.max(mx, r.trial_id ?? 0), 0) + 1] *)
Definition next_trial_id (pid comp : string) (history : list Row) : Z :=
  fold_left (λ mx r, Z.max mx (default 0 (trial_id r)))
    (filter (row_matches pid comp) history) 0 + 1.

(** [preferred === "tie" ? resolveTiePreferred(..) : preferred] *)
Definition vote_resolved
    (pid comp : string) (trialId : Z) (leftId rightId : string)
    (preferred : Preferred) : Side :=
  match preferred with
  | PrefTie => resolveTiePreferred pid comp trialId leftId rightId
  | PrefLeft => Left
  | PrefRight => Right
  end.

(** [voteObj] *)
Definition vote_row
    (pid comp : string) (history : list Row) (leftId rightId : string)
    (preferred : Preferred) (feedback : string) : Row :=
  let trialId := next_trial_id pid comp history in
  let resolved_preferred :=
    vote_resolved pid comp trialId leftId rightId preferred in
  {| vote_id := Some (makeVoteId pid comp trialId);
     participant_id := Some pid;
     component := Some comp;
     trial_id := Some trialId;
     left_method_id := leftId;
     right_method_id := rightId;
     preferred := Some (preferred_string preferred);
     resolved_preferred := Some (side_string resolved_preferred);
     feedback :=
       if decide (trim feedback = "") then None else Some (trim feedback) |}.

(** [vote(preferred)]: the history after the answer.  Without a pair,
    a token or a participant id nothing happens. *)
Definition vote
    (token pid comp : string) (validMethodIds : list string)
    (history : list Row) (preferred : Preferred) (feedback : string)
  : list Row :=
  match current_pair pid comp validMethodIds history with
  | None => history
  | Some (leftId, rightId) =>
      if bool_decide (token = "") || bool_decide (pid = "") then history
      else history ++
           [vote_row pid comp history leftId rightId preferred feedback]
  end.

(** The answers of a session, one after the other. *)
Definition session
    (token pid comp : string) (validMethodIds : list string)
    (answers : list (Preferred * string)) (history : list Row) : list Row :=
  fold_left (λ h a, vote token pid comp validMethodIds h a.1 a.2)
    answers history.

(** The progress shown on the page: [seen], [total] and [isDone]. *)
Definition seen (pid comp : string) (history : list Row) : nat :=
  length (filter (row_matches pid comp) history).

Definition total (validMethodIds : list string) : nat :=
  Z.to_nat (Z.max 0 (Z.of_nat (length validMethodIds) - 1)).

Definition isDone
    (pid comp : string) (validMethodIds : list string) (history : list Row)
  : bool :=
  if (2 <=? length validMethodIds)%nat
  then bool_decide (current_pair pid comp validMethodIds history = None)
  else false.

(** ** Method documents and eligibility

    The content of a method is a JSON document.  An object lists each of its
    keys once, in the order of [Object.keys]; the value of a number is only
    ever tested for being zero. *)
#[warnings="-register-all"] Inductive Json :=
  | JNull
  | JBool (b : bool)
  | JNum (n : Z)
  | JStr (s : string)
  | JArr (items : list Json)
  | JObj (fields : list (string * Json)).

(** [isEmptyValue(v)] *)
Fixpoint isEmptyValue (v : Json) : bool :=
  match v with
  | JNull => true
  | JStr s => bool_decide (trim s = "")
  | JArr items =>
      if bool_decide (length items = 0%nat) then true
      else forallb isEmptyValue items
  | JObj fields =>
      if bool_decide (length fields = 0%nat) then true
      else forallb (λ kv, isEmptyValue kv.2) fields
  | JBool _ | JNum _ => false
  end.

(** [s.replace(/[^..]/g, "")] for a character class [p] *)
Fixpoint string_filter (p : ascii → bool) (s : string) : string :=
  match s with
  | EmptyString => EmptyString
  | String c s' =>
      if p c then String c (string_filter p s') else string_filter p s'
  end.

(** The class [[a-z0-9]] *)
Definition is_lower_alnum (c : ascii) : bool :=
  let n := N_of_ascii c in
  ((97 <=? n) && (n <=? 122) || (48 <=? n) && (n <=? 57))%N.

Definition normKey (s : string) : string :=
  string_filter is_lower_alnum (toLowerCase s).

(** [s.endsWith("s") ? s.slice(0, -1) : s] *)
Fixpoint stripPlural (s : string) : string :=
  match s with
  | EmptyString => EmptyString
  | String c EmptyString =>
      if bool_decide (c = "s"%char) then EmptyString else s
  | String c s' => String c (stripPlural s')
  end.

(** [s.includes(sub)] *)
Fixpoint includes (s sub : string) : bool :=
  String.prefix sub s ||
  match s with
  | EmptyString => false
  | String _ s' => includes s' sub
  end.

(** The own enumerable properties of a value that passes
    [obj && typeof obj === "object"]: the fields of an object, the indexed
    elements of an array. *)
Definition object_entries (v : Json) : list (string * Json) :=
  match v with
  | JObj fields => fields
  | JArr items =>
      zip ((λ i, number_to_string (Z.of_nat i)) <$> seq 0 (length items)) items
  | _ => []
  end.

Definition is_object (v : Json) : bool :=
  match v with
  | JObj _ | JArr _ => true
  | _ => false
  end.

(** The score that [bestMatchingKey] gives to the key [k]. *)
Definition key_score (target targetS k : string) : nat :=
  let nk := normKey k in
  let nkS := stripPlural nk in
  if bool_decide (nk = target) then 100
  else if bool_decide (nkS = targetS) then 95
  else if includes nk target || includes target nk then 70
  else if includes nkS targetS || includes targetS nkS then 60
  else 0.

(** One turn of the loop over [Object.keys(obj)]. *)
Definition best_step (target targetS : string)
    (best : option (string * nat)) (k : string) : option (string * nat) :=
  let score := key_score target targetS k in
  if (0 <? score)%nat &&
     match best with None => true | Some b => (b.2 <? score)%nat end
  then Some (k, score)
  else best.

Definition bestMatchingKey (obj : Json) (desired : string) : option string :=
  if negb (is_object obj) then None
  else
    let target := normKey desired in
    let targetS := stripPlural target in
    let best :=
      fold_left (best_step target targetS) (object_entries obj).*1 None in
    fst <$> best.

(** [obj[k]] for a key of [Object.keys(obj)] *)
Definition get_property (obj : Json) (k : string) : option Json :=
  (λ r, r.2.2) <$> list_find (λ kv, kv.1 = k) (object_entries obj).

(** [k ? methodData[k] : null]; the empty key is falsy. *)
Definition getComponentValue (methodData : Json) (component : string) : Json :=
  match bestMatchingKey methodData component with
  | None => JNull
  | Some k =>
      if bool_decide (k = "") then JNull
      else default JNull (get_property methodData k)
  end.

(** [!md] is false *)
Definition truthy (v : Json) : bool :=
  match v with
  | JNull => false
  | JBool b => b
  | JNum n => negb (n =? 0)
  | JStr s => negb (bool_decide (s = ""))
  | JArr _ | JObj _ => true
  end.

Record Method := mkMethod {
  method_id : string;
  method_name : string;
  method_file : string;
}.

(** The test of the filter in [validMethodIds]. *)
Definition method_valid
    (methods : gmap string Json) (activeComponent : string) (id : string)
  : bool :=
  match methods !! id with
  | None => false
  | Some md =>
      if negb (truthy md) then false
      else negb (isEmptyValue (getComponentValue md activeComponent))
  end.

(** [validMethodIds]; [manifest] is [None] until the manifest is loaded. *)
Definition validMethodIds
    (manifest : option (list Method)) (methods : gmap string Json)
    (activeComponent : string) : list string :=
  match manifest with
  | None => []
  | Some ms =>
      filter (λ id, method_valid methods activeComponent id = true)
        (method_id <$> ms)
  end.

(** A document holds content when some leaf of it is a boolean, a number or
    a string with a character that is not white space. *)
Inductive has_content : Json → Prop :=
  | has_content_bool b : has_content (JBool b)
  | has_content_num n : has_content (JNum n)
  | has_content_str s : trim s ≠ "" → has_content (JStr s)
  | has_content_arr items v :
      v ∈ items → has_content v → has_content (JArr items)
  | has_content_obj fields k v :
      (k, v) ∈ fields → has_content v → has_content (JObj fields).

(** ** Escaping text for display *)

(** [s.replace(/c/g, by)] for one character [c] *)
Fixpoint replace_char (c : ascii) (by_ : string) (s : string) : string :=
  match s with
  | EmptyString => EmptyString
  | String x s' =>
      if decide (x = c) then by_ +:+ replace_char c by_ s'
      else String x (replace_char c by_ s')
  end.

(** The double quote, U+0022, and the apostrophe, U+0027. *)
Definition dquote : ascii := ascii_of_N 34.
Definition squote : ascii := ascii_of_N 39.

Definition escapeHtml (s : string) : string :=
  replace_char squote "&#039;"
    (replace_char dquote "&quot;"
       (replace_char ">" "&gt;"
          (replace_char "<" "&lt;"
             (replace_char "&" "&amp;" s)))).

(** The entity of one character. *)
Definition escape_char (c : ascii) : string :=
  if decide (c = "&"%char) then "&amp;"
  else if decide (c = "<"%char) then "&lt;"
  else if decide (c = ">"%char) then "&gt;"
  else if decide (c = dquote) then "&quot;"
  else if decide (c = squote) then "&#039;"
  else String c EmptyString.

Fixpoint escape_chars (s : string) : string :=
  match s with
  | EmptyString => EmptyString
  | String c s' => escape_char c +:+ escape_chars s'
  end.

(** A character that can open or close a tag or an attribute value. *)
Definition is_markup_char (c : ascii) : bool :=
  bool_decide (c = "<"%char) || bool_decide (c = ">"%char)
  || bool_decide (c = dquote) || bool_decide (c = squote).

(** ** The small markdown of the option cards *)

(** A character that the regular expression [.] does not match, among the
    code units below 256: LF and CR. *)
Definition is_line_terminator (c : ascii) : bool :=
  let n := N_of_ascii c in ((n =? 10) || (n =? 13))%N.

(** The lazy group and the closing stars of [/\*\*(.+?)\*\*/] after the
    first character of the group: stop at the first [**], give up at a line
    terminator or at the end.  The result is the rest of the group. *)
Fixpoint find_close (s : string) : option string :=
  match s with
  | EmptyString => None
  | String c s' =>
      if String.prefix "**" s then Some EmptyString
      else if is_line_terminator c then None
      else String c <$> find_close s'
  end.

(** A match of [/\*\*(.+?)\*\*/] at the start of [s]: the group. *)
Definition match_bold (s : string) : option string :=
  match s with
  | String c1 (String c2 (String c s')) =>
      if bool_decide (c1 = "*"%char) && bool_decide (c2 = "*"%char)
         && negb (is_line_terminator c)
      then String c <$> find_close s'
      else None
  | _ => None
  end.

(** [s.replace(/\*\*(.+?)\*\*/g, "<strong>$1</strong>")]: the matches are
    found from left to right and do not overlap; [skip] counts the
    characters of the current match that are still to be passed. *)
Fixpoint replace_bold (skip : nat) (s : string) : string :=
  match s with
  | EmptyString => EmptyString
  | String c s' =>
      match skip with
      | S n => replace_bold n s'
      | O =>
          match match_bold s with
          | Some group =>
              "<strong>" +:+ group +:+ "</strong>" +:+
              replace_bold (String.length group + 3) s'
          | None => String c (replace_bold 0 s')
          end
      end
  end.

Definition renderMiniMarkdown (md : string) : string :=
  let safe := escapeHtml md in
  let withBold := replace_bold 0 safe in
  replace_char "010" "<br/>" withBold.

(** A character that is neither markup nor a line terminator. *)
Definition is_inline_char (c : ascii) : bool :=
  negb (is_markup_char c) && negb (is_line_terminator c).

(** Text whose only markup is line breaks and [strong] elements, each
    closed, around a non-empty piece of one line without markup. *)
Inductive mini_html : string → Prop :=
  | mini_html_nil : mini_html EmptyString
  | mini_html_char c s :
      is_markup_char c = false → mini_html s → mini_html (String c s)
  | mini_html_br s : mini_html s → mini_html ("<br/>" +:+ s)
  | mini_html_strong group s :
      group ≠ EmptyString →
      string_forall is_inline_char group = true →
      mini_html s →
      mini_html ("<strong>" +:+ group +:+ "</strong>" +:+ s).

(** ** The worker: participant ids, text fields and the vote boundary

    A function of the worker that throws is modelled with the message of
    its error. *)
Inductive Result (A : Type) :=
  | Ok (a : A)
  | Err (message : string).
Arguments Ok {A} a.
Arguments Err {A} message.

(** [s.padStart(targetLength, "0")] *)
Fixpoint zeros (n : nat) : string :=
  match n with
  | O => EmptyString
  | S n' => String "0" (zeros n')
  end.

Definition padStart_zero (targetLength : nat) (s : string) : string :=
  zeros (targetLength - String.length s) +:+ s.

(** [Number.isSafeInteger(n)]: the integers that a number holds exactly.
    [String(n)] writes them in plain decimal and [parseInt] reads their
    numeral without rounding.  Beyond them the text of a number has
    rounded digits, and an exponent from 1e21 on, and [parseInt] rounds
    its result to a double.  The two functions on participant ids are
    modelled on the safe integers; [None] stands for a number that is not
    one. *)
Definition is_safe_integer (n : Z) : bool :=
  (- 2 ^ 53 <? n) && (n <? 2 ^ 53).

Definition formatParticipantId (n : Z) : option string :=
  if is_safe_integer n
  then Some (String "P" (padStart_zero 5 (number_to_string n)))
  else None.

(** The class [\d] *)
Definition is_digit (c : ascii) : bool :=
  let n := N_of_ascii c in ((48 <=? n) && (n <=? 57))%N.

(** The value of a string of decimal digits: [parseInt(ds, 10)] when the
    string is not empty and the value is a safe integer. *)
Fixpoint parse_digits (acc : Z) (ds : string) : Z :=
  match ds with
  | EmptyString => acc
  | String c ds' => parse_digits (acc * 10 + (char_code c - 48)) ds'
  end.

(** [/^P(\d+)$/.exec(pid)] and [parseInt] of the group *)
Definition parseParticipantId (pid : string) : option (Result Z) :=
  match pid with
  | String c ds =>
      if bool_decide (c = "P"%char) && negb (bool_decide (ds = ""))
         && string_forall is_digit ds
      then
        let n := parse_digits 0 ds in
        if is_safe_integer n then Some (Ok n) else None
      else Some (Err "Invalid participant_id")
  | EmptyString => Some (Err "Invalid participant_id")
  end.

(** [s.slice(0, n)] *)
Fixpoint string_take (n : nat) (s : string) : string :=
  match n, s with
  | S n', String c s' => String c (string_take n' s')
  | _, _ => EmptyString
  end.

(** [sanitizeText(v, maxLen)]; [None] is a missing value. *)
Definition sanitizeText (v : option string) (maxLen : nat) : string :=
  let s := trim (default "" v) in
  if (maxLen <? String.length s)%nat then string_take maxLen s else s.

Definition normalizePreferred (p : string) : Result Preferred :=
  let v := trim (toLowerCase p) in
  if bool_decide (v = "left") || bool_decide (v = "top") then Ok PrefLeft
  else if bool_decide (v = "right") || bool_decide (v = "bottom")
  then Ok PrefRight
  else if bool_decide (v = "tie") || bool_decide (v = "none")
          || bool_decide (v = "no_preference")
          || bool_decide (v = "nopreference")
  then Ok PrefTie
  else Err "preferred must be one of: left/right/tie (or top/bottom)".

Definition normalizeResolvedPreferred (p : string) : Result Side :=
  let v := trim (toLowerCase p) in
  if bool_decide (v = "left") || bool_decide (v = "top") then Ok Left
  else if bool_decide (v = "right") || bool_decide (v = "bottom")
  then Ok Right
  else Err "resolved_preferred must be one of: left/right (or top/bottom)".

(** The two outcome fields that the vote route stores, from the fields
    [preferred] and [resolved_preferred] of the submitted vote: the part of
    the route from its check of [preferred] on.  The whole route, with its
    checks of the other fields, is [vote_route] below. *)
Definition vote_outcome
    (preferred : string) (resolved_preferred : option string)
  : Result (Preferred * Side) :=
  if bool_decide (trim preferred = "") then Err "Missing field: preferred"
  else
  match normalizePreferred preferred with
  | Err e => Err e
  | Ok p =>
      match resolved_preferred with
      | Some r =>
          if negb (bool_decide (trim r = "")) then
            match normalizeResolvedPreferred r with
            | Ok s => Ok (p, s)
            | Err e => Err e
            end
          else
            match p with
            | PrefTie => Err "Missing resolved_preferred for tie"
            | PrefLeft => Ok (p, Left)
            | PrefRight => Ok (p, Right)
            end
      | None =>
          match p with
          | PrefTie => Err "Missing resolved_preferred for tie"
          | PrefLeft => Ok (p, Left)
          | PrefRight => Ok (p, Right)
          end
      end
  end.

(** The row that the vote route stores.  The fields [user_agent],
    [page_url] and [received_at], which come from the request and from the
    clock of the worker, are left out. *)
Record VoteRow := mkVoteRow {
  stored_id : string;
  stored_participant_id : string;
  stored_component : string;
  stored_trial_id : Z;
  stored_left_method_id : string;
  stored_right_method_id : string;
  stored_preferred : Preferred;
  stored_resolved_preferred : Side;
  stored_feedback : option string;
  stored_timestamp_utc : string;
}.

(** What the vote route does with a vote: it stores a row, it answers
    with an error status and message, or one of the two normalizers
    throws. *)
Inductive Response :=
  | Stored (row : VoteRow)
  | Refused (status : Z) (error : string)
  | Thrown (message : string).

(** [vote[k] == null || String(vote[k]).trim() === ""] for a field that
    holds a string. *)
Definition missing (field : option string) : bool :=
  match field with
  | None => true
  | Some s => bool_decide (trim s = "")
  end.

(** The vote route from the verified token on.  [token_pid] is the
    [participant_id] of the token's payload, [v] the submitted vote,
    [timestamp_utc] its time stamp and [uuid] the value that
    [crypto.randomUUID()] would give.  A [Row] always has its two method
    ids, and the text of a trial id, a number, is never blank. *)
Definition vote_route
    (token_pid : string) (v : Row) (timestamp_utc : option string)
    (uuid : string) : Response :=
  if bool_decide (token_pid = "") then Refused 401 "Invalid token payload"
  else if negb (bool_decide (default "" (participant_id v) = token_pid))
  then Refused 403 "participant_id mismatch"
  else if missing (component v) then Refused 400 "Missing field: component"
  else if negb (bool_decide (is_Some (trial_id v)))
  then Refused 400 "Missing field: trial_id"
  else if missing (Some (left_method_id v))
  then Refused 400 "Missing field: left_method_id"
  else if missing (Some (right_method_id v))
  then Refused 400 "Missing field: right_method_id"
  else if missing (preferred v) then Refused 400 "Missing field: preferred"
  else if missing timestamp_utc
  then Refused 400 "Missing field: timestamp_utc"
  else
    match vote_outcome (default "" (preferred v)) (resolved_preferred v) with
    | Err e => Thrown e
    | Ok (p, s) =>
        Stored
          {| stored_id :=
               match vote_id v with
               | Some i => if bool_decide (i = "") then uuid else i
               | None => uuid
               end;
             stored_participant_id := token_pid;
             stored_component := default "" (component v);
             stored_trial_id := default 0 (trial_id v);
             stored_left_method_id := left_method_id v;
             stored_right_method_id := right_method_id v;
             stored_preferred := p;
             stored_resolved_preferred := s;
             stored_feedback :=
               match feedback v with
               | None => None
               | Some f => Some (sanitizeText (Some f) 5000)
               end;
             stored_timestamp_utc := default "" timestamp_utc |}
    end.

(** The state of a session after [k] votes: a tournament of [k] rounds
    whose rows for the participant and the component are numbered 1 to [k]
    in the order of the history and carry the vote id of their trial. *)
Definition session_state
    (pid comp : string) (ms : list string) (h : list Row) (k : nat) : Prop :=
  tournament pid comp ms h k ∧
  trial_id <$> filter (row_matches pid comp) h
    = (λ i, Some (Z.of_nat i)) <$> seq 1 k ∧
  Forall (λ r, ∃ t, trial_id r = Some t ∧
                    vote_id r = Some (makeVoteId pid comp t))
    (filter (row_matches pid comp) h).

(** * Properties *)

(** ** Test vectors *)

(** The offset basis and the FNV-1a hash of "a". *)
Example hash32_empty : hash32 "" = 2166136261.
Proof. reflexivity. Qed.

Example hash32_a : hash32 "a" = 0xE40C292C.
Proof. reflexivity. Qed.

Example stableShuffle_example :
  stableShuffle ["A"; "B"; "C"] "P00001::action_space" = ["B"; "C"; "A"].
Proof. by vm_compute. Qed.

Example nextPair_example :
  nextPair "P00001" "action_space" ["A"; "B"; "C"] [] = Some ("B", "C").
Proof. by vm_compute. Qed.

Example trim_example : trim "  Action  Space! " = "Action  Space!".
Proof. reflexivity. Qed.

(** ** Words of the generator *)

Lemma to_uint32_range z : 0 ≤ to_uint32 z < 2 ^ 32.
Proof. unfold to_uint32. apply Z.mod_pos_bound. lia. Qed.

Lemma mulberry32_range seed : 0 ≤ (mulberry32 seed).1 < 2 ^ 32.
Proof. unfold mulberry32. simpl. apply to_uint32_range. Qed.

(** The index [Math.floor(rnd() * k)] lies inside an array of length [k]. *)
Lemma floor_mul_lt n k :
  0 ≤ n < 2 ^ 32 → (0 < k)%nat → (floor_mul n k < k)%nat.
Proof.
  intros Hn Hk. unfold floor_mul.
  assert (n * Z.of_nat k / 2 ^ 32 < Z.of_nat k).
  { apply Z.div_lt_upper_bound; nia. }
  assert (0 ≤ n * Z.of_nat k / 2 ^ 32) by (apply Z.div_pos; nia).
  lia.
Qed.

(** In [stableShuffle] the index [j] drawn at position [i] is at most [i]. *)
Lemma floor_mul_le n i :
  0 ≤ n < 2 ^ 32 → (floor_mul n (i + 1) ≤ i)%nat.
Proof. intros Hn. pose proof (floor_mul_lt n (i + 1) Hn). lia. Qed.

(** Both cells exchanged at position [i] of the shuffle exist. *)
Lemma shuffle_swap_defined {T} (a : list T) i seed :
  (i < length a)%nat →
  is_Some (a !! i) ∧ is_Some (a !! floor_mul (mulberry32 seed).1 (i + 1)).
Proof.
  intros Hi. split; apply lookup_lt_is_Some; [done |].
  pose proof (floor_mul_le _ i (mulberry32_range seed)). lia.
Qed.

Lemma swap_length {T} (a : list T) i j : length (swap a i j) = length a.
Proof.
  unfold swap. destruct (a !! i), (a !! j); try done.
  by rewrite !length_insert.
Qed.

(** ** Input guard of the scheduler *)

Lemma nextPair_guard_None pid comp ms h :
  pid = "" ∨ (length ms < 2)%nat → nextPair pid comp ms h = None.
Proof.
  intros Hpre. unfold nextPair.
  destruct Hpre as [-> | Hlen]; [reflexivity |].
  apply Nat.ltb_lt in Hlen. rewrite Hlen.
  by rewrite orb_true_r.
Qed.

(** C8: whatever the component, the eligible list and the history, [nextPair]
    returns null when the participant id is empty or when fewer than two
    method ids are eligible. *)
Theorem nextPair_insufficient_input pid comp ms h :
  pid = "" ∨ (length ms < 2)%nat → nextPair pid comp ms h = None.
Proof. apply nextPair_guard_None. Qed.

Lemma nextPair_insufficient_input_witness :
  nextPair "" "cautions" ["A"; "B"; "C"] [] = None ∧
  nextPair "P00001" "cautions" ["A"]
    [mkRow None (Some "P00001") (Some "cautions") (Some 1) "A" "B"
       (Some "left") (Some "left") None] = None.
Proof.
  split.
  - apply nextPair_insufficient_input. left. reflexivity.
  - apply nextPair_insufficient_input. right. simpl. lia.
Defined.

(** ** Tie resolution *)

Lemma elem_of_TOPA_FAVORITES m : m ∈ TOPA_FAVORITES ↔ favored m.
Proof.
  unfold TOPA_FAVORITES, favored.
  rewrite !elem_of_union, !elem_of_singleton. tauto.
Qed.

Lemma favored_decide m :
  favored m → bool_decide (m ∈ TOPA_FAVORITES) = true.
Proof. intros. by apply bool_decide_eq_true, elem_of_TOPA_FAVORITES. Qed.

Lemma not_favored_decide m :
  ¬ favored m → bool_decide (m ∈ TOPA_FAVORITES) = false.
Proof.
  intros. apply bool_decide_eq_false. by rewrite elem_of_TOPA_FAVORITES.
Qed.

(** For a favoured id the table [TOPA_FAVORITE_ORDER] holds its rank. *)
Lemma favorite_order_rank m :
  favored m → default 999 (TOPA_FAVORITE_ORDER !! m) = favorite_rank m.
Proof. by intros [-> | [-> | ->]]. Qed.

Lemma resolveTie_both pid comp t l r :
  favored l → favored r →
  resolveTiePreferred pid comp t l r =
    if favorite_rank l <=? favorite_rank r then Left else Right.
Proof.
  intros Hl Hr. unfold resolveTiePreferred.
  rewrite (favored_decide l Hl), (favored_decide r Hr). simpl.
  by rewrite !favorite_order_rank.
Qed.

(** C4: when both compared methods are among G, H and I the tie goes to the
    side of lower rank under H < I < G; when exactly one of them is, the tie
    goes to that side.  So (H, I) and (I, G) give left and (X, H) gives
    right, for every participant, component and trial. *)
Theorem resolveTie_favorites pid comp t l r :
  (favored l → favored r → favorite_rank l < favorite_rank r →
   resolveTiePreferred pid comp t l r = Left) ∧
  (favored l → favored r → favorite_rank r < favorite_rank l →
   resolveTiePreferred pid comp t l r = Right) ∧
  (favored l → ¬ favored r → resolveTiePreferred pid comp t l r = Left) ∧
  (¬ favored l → favored r → resolveTiePreferred pid comp t l r = Right) ∧
  resolveTiePreferred pid comp t "H" "I" = Left ∧
  resolveTiePreferred pid comp t "I" "G" = Left ∧
  resolveTiePreferred pid comp t "X" "H" = Right.
Proof.
  repeat split.
  - intros Hl Hr Hlt. rewrite resolveTie_both by done.
    destruct (Z.leb_spec (favorite_rank l) (favorite_rank r)); [done | lia].
  - intros Hl Hr Hlt. rewrite resolveTie_both by done.
    destruct (Z.leb_spec (favorite_rank l) (favorite_rank r)); [lia | done].
  - intros Hl Hr. unfold resolveTiePreferred.
    by rewrite (favored_decide l Hl), (not_favored_decide r Hr).
  - intros Hl Hr. unfold resolveTiePreferred.
    by rewrite (not_favored_decide l Hl), (favored_decide r Hr).
Qed.

Lemma resolveTie_favorites_witness :
  resolveTiePreferred "P00001" "cautions" 3 "G" "H" = Right ∧
  resolveTiePreferred "P00001" "cautions" 3 "I" "B" = Left.
Proof.
  split.
  - destruct (resolveTie_favorites "P00001" "cautions" 3 "G" "H")
      as (_ & Hlower & _).
    apply Hlower.
    + left. reflexivity.
    + right. left. reflexivity.
    + reflexivity.
  - destruct (resolveTie_favorites "P00001" "cautions" 3 "I" "B")
      as (_ & _ & Hone & _).
    apply Hone.
    + right. right. reflexivity.
    + intros [H | [H | H]]; discriminate H.
Defined.

(** ** Vote identifiers *)

Lemma string_forall_app p s1 s2 :
  string_forall p (s1 +:+ s2) = string_forall p s1 && string_forall p s2.
Proof.
  induction s1 as [| c s1 IH]; simpl; [done |].
  by rewrite IH, andb_assoc.
Qed.

Lemma strip_non_id_chars s : string_forall is_id_char (strip_non_id s) = true.
Proof.
  induction s as [| c s IH]; simpl; [done |].
  destruct (is_id_char c) eqn:Hc; simpl; [by rewrite Hc |]; done.
Qed.

Lemma pretty_N_char_not_underscore x : not_underscore (pretty_N_char x) = true.
Proof. unfold pretty_N_char. by repeat case_match. Qed.

Lemma pretty_N_go_not_underscore x s :
  string_forall not_underscore s = true →
  string_forall not_underscore (pretty_N_go x s) = true.
Proof.
  revert s. induction (N.lt_wf_0 x) as [x _ IH]; intros s Hs.
  assert (x = 0 ∨ 0 < x)%N as [-> | Hx] by lia.
  - by rewrite pretty_N_go_0.
  - rewrite pretty_N_go_step by done. apply IH.
    + by apply N.div_lt.
    + simpl. by rewrite pretty_N_char_not_underscore.
Qed.

Lemma pretty_N_not_underscore (x : N) :
  string_forall not_underscore (pretty x) = true.
Proof.
  unfold pretty, pretty_N. case_decide; [done |].
  by apply pretty_N_go_not_underscore.
Qed.

(** The decimal numeral of an integer has no underscore. *)
Lemma number_to_string_not_underscore t :
  string_forall not_underscore (number_to_string t) = true.
Proof.
  unfold number_to_string, pretty, pretty_Z. destruct t as [| p | p].
  - done.
  - apply pretty_N_not_underscore.
  - simpl. apply pretty_N_not_underscore.
Qed.

Lemma app_String x s t : String x s +:+ t = String x (s +:+ t).
Proof. reflexivity. Qed.

Lemma app_empty t : "" +:+ t = t.
Proof. reflexivity. Qed.

Lemma underscore_inside c d d' :
  d = c +:+ "__" +:+ d' → string_forall not_underscore d = false.
Proof.
  intros ->. rewrite string_forall_app, !app_String. simpl.
  by rewrite andb_false_r.
Qed.

(** A string [c ++ "__" ++ d] whose tail [d] has no underscore determines
    [c] and [d]. *)
Lemma split_at_separator c1 c2 d1 d2 :
  string_forall not_underscore d1 = true →
  string_forall not_underscore d2 = true →
  c1 +:+ "__" +:+ d1 = c2 +:+ "__" +:+ d2 →
  c1 = c2 ∧ d1 = d2.
Proof.
  intros Hd1 Hd2. revert c2.
  induction c1 as [| x c1 IH]; intros [| y c2] Heq;
    rewrite ?app_String, ?app_empty in Heq.
  - by simplify_eq.
  - injection Heq as <- Heq.
    destruct c2 as [| z c2]; rewrite ?app_String, ?app_empty in Heq.
    + injection Heq as ->. simpl in Hd1. done.
    + injection Heq as <- Heq.
      by rewrite (underscore_inside c2 d1 d2) in Hd1.
  - injection Heq as -> Heq.
    destruct c1 as [| z c1]; rewrite ?app_String, ?app_empty in Heq.
    + injection Heq as <-. simpl in Hd2. done.
    + injection Heq as -> Heq. symmetry in Heq.
      by rewrite (underscore_inside c1 d2 d1) in Hd2.
  - injection Heq as -> Heq. destruct (IH c2 Heq) as [-> ->]. done.
Qed.

(** C7: the vote id is [pid__c__trial] where [c] is the component trimmed,
    with every white-space run replaced by one underscore and every
    character outside [A-Za-z0-9_-] removed; the id of ("P00001",
    "Action Space!", 4) is "P00001__Action_Space__4"; and for one
    participant the id determines the sanitized component and the trial. *)
Theorem makeVoteId_spec :
  makeVoteId "P00001" "Action Space!" 4 = "P00001__Action_Space__4" ∧
  (∀ pid c t,
     makeVoteId pid c t =
       pid +:+ "__" +:+ strip_non_id (replace_spaces false (trim c)) +:+
       "__" +:+ number_to_string t) ∧
  (∀ c, string_forall is_id_char (sanitize_component c) = true) ∧
  (∀ pid c1 t1 c2 t2,
     makeVoteId pid c1 t1 = makeVoteId pid c2 t2 →
     sanitize_component c1 = sanitize_component c2 ∧ t1 = t2).
Proof.
  split; [by vm_compute |]. split; [done |].
  split; [intros c; apply strip_non_id_chars |].
  intros pid c1 t1 c2 t2 Heq. unfold makeVoteId in Heq.
  apply (inj (String.app pid)), (inj (String.app "__")) in Heq.
  apply split_at_separator in Heq
    as [Hc Ht]; auto using number_to_string_not_underscore.
  split; [done |]. by apply (inj pretty) in Ht.
Qed.

Lemma makeVoteId_spec_witness :
  sanitize_component "User  Profile?" = sanitize_component " User Profile " ∧
  (7 : Z) = 7.
Proof.
  destruct makeVoteId_spec as (_ & _ & _ & Hinj).
  apply (Hinj "P00001" "User  Profile?" 7 " User Profile " 7).
  reflexivity.
Defined.

(** ** The stable sort *)

Section array_sort.
Context {A : Type} (cmp : A → A → Z) (R : relation A).
Hypothesis cmp_le : ∀ x y, cmp x y ≤ 0 → R x y.
Hypothesis cmp_gt : ∀ x y, 0 < cmp x y → R y x.

Lemma sort_insert_Permutation x l : sort_insert cmp x l ≡ₚ x :: l.
Proof.
  induction l as [| y l IH]; simpl; [done |].
  destruct (cmp x y <=? 0); [done |].
  by rewrite IH, Permutation_swap.
Qed.

Lemma array_sort_Permutation l : array_sort cmp l ≡ₚ l.
Proof.
  induction l as [| x l IH]; simpl; [done |].
  by rewrite sort_insert_Permutation, IH.
Qed.

Lemma array_sort_length l : length (array_sort cmp l) = length l.
Proof. by rewrite array_sort_Permutation. Qed.

Lemma sort_insert_HdRel a x l :
  R a x → HdRel R a l → HdRel R a (sort_insert cmp x l).
Proof.
  intros Hax Hal. destruct l as [| y l]; simpl; [by constructor |].
  destruct (cmp x y <=? 0); constructor; [done |].
  by inversion Hal.
Qed.

Lemma sort_insert_Sorted x l : Sorted R l → Sorted R (sort_insert cmp x l).
Proof.
  induction 1 as [| y l Hl IH Hy]; simpl; [by repeat constructor |].
  destruct (Z.leb_spec (cmp x y) 0).
  - repeat constructor; auto.
  - constructor; [done |]. apply sort_insert_HdRel; auto.
Qed.

Lemma array_sort_Sorted l : Sorted R (array_sort cmp l).
Proof.
  induction l as [| x l IH]; simpl; [constructor |].
  by apply sort_insert_Sorted.
Qed.

(** Sorting a sorted array leaves it as it is. *)
Lemma array_sort_sorted l :
  Sorted (λ x y, cmp x y ≤ 0) l → array_sort cmp l = l.
Proof.
  induction 1 as [| x l Hl IH Hx]; simpl; [done |].
  rewrite IH. destruct Hx as [| y l Hxy]; simpl; [done |].
  destruct (Z.leb_spec (cmp x y) 0); [done | lia].
Qed.

Lemma StronglySorted_last l x :
  Reflexive R → StronglySorted R l → last l = Some x → Forall (λ y, R y x) l.
Proof.
  intros Hrefl. induction 1 as [| y l Hl IH Hy]; intros Hlast; [done |].
  destruct l as [| z l]; simpl in Hlast.
  - simplify_eq. by repeat constructor.
  - constructor; [| by apply IH].
    rewrite Forall_forall in Hy. apply Hy.
    apply (last_Some_elem_of (z :: l)). done.
Qed.
End array_sort.

(** ** The shuffle *)

Lemma swap_Permutation {T} (a : list T) i j : swap a i j ≡ₚ a.
Proof.
  unfold swap.
  destruct (a !! i) as [x |] eqn:Hi; [| done].
  destruct (a !! j) as [y |] eqn:Hj; [| done].
  pose proof (lookup_lt_Some _ _ _ Hi) as Hilt.
  pose proof (lookup_lt_Some _ _ _ Hj) as Hjlt.
  apply Permutation_inj. split; [by rewrite !length_insert |].
  exists (λ k, if decide (k = j) then i else if decide (k = i) then j else k).
  split.
  - intros k1 k2 Hk. repeat case_decide; congruence.
  - intros k. destruct (decide (k = j)) as [-> | Hkj].
    + rewrite list_lookup_insert_eq by (by rewrite length_insert). done.
    + rewrite list_lookup_insert_ne by done.
      destruct (decide (k = i)) as [-> | Hki].
      * by rewrite list_lookup_insert_eq.
      * by rewrite list_lookup_insert_ne.
Qed.

Lemma shuffle_loop_Permutation {T} i (a : list T) seed :
  shuffle_loop i a seed ≡ₚ a.
Proof.
  revert a seed. induction i as [| i IH]; intros a seed; simpl; [done |].
  destruct (mulberry32 seed) as [v seed'].
  by rewrite IH, swap_Permutation.
Qed.

(** [stableShuffle] returns a rearrangement of its input. *)
Lemma stableShuffle_Permutation {T} (arr : list T) seedStr :
  stableShuffle arr seedStr ≡ₚ arr.
Proof. apply shuffle_loop_Permutation. Qed.

Lemma stableShuffle_first_two (arr : list string) seedStr :
  (2 ≤ length arr)%nat →
  ∃ a b rest, stableShuffle arr seedStr = a :: b :: rest.
Proof.
  intros Hlen.
  pose proof (Permutation_length (stableShuffle_Permutation arr seedStr)) as Hl.
  destruct (stableShuffle arr seedStr) as [| a [| b rest]];
    simpl in Hl; [lia | lia | eauto].
Qed.

(** ** The scheduler: rows of a participant and a component *)

Lemma filter_no_match pid comp h :
  Forall (λ r, ¬ row_matches pid comp r) h →
  filter (row_matches pid comp) h = [].
Proof.
  induction 1 as [| r h Hr _ IH]; [done |].
  by rewrite filter_cons_False.
Qed.

Lemma rows_of_no_match pid comp h :
  Forall (λ r, ¬ row_matches pid comp r) h → rows_of pid comp h = [].
Proof. intros H. unfold rows_of. by rewrite filter_no_match. Qed.

Lemma rows_of_Permutation pid comp h :
  rows_of pid comp h ≡ₚ filter (row_matches pid comp) h.
Proof. apply array_sort_Permutation. Qed.

Lemma nextPair_guard (pid : string) (ms : list string) :
  pid ≠ "" → (2 ≤ length ms)%nat →
  bool_decide (pid = "") || (length ms <? 2)%nat = false.
Proof.
  intros Hpid Hlen. rewrite bool_decide_eq_false_2 by done. simpl.
  apply Nat.ltb_ge. lia.
Qed.

(** C3, amended: without a row for the participant and the component,
    [nextPair] returns the first two entries of the shuffle of the eligible
    ids whose seed string is the participant id, two colons and the
    component; that shuffle is a rearrangement of the eligible ids. *)
Theorem nextPair_bootstrap pid comp ms h :
  pid ≠ "" → (2 ≤ length ms)%nat →
  Forall (λ r, ¬ row_matches pid comp r) h →
  ∃ a b rest,
    stableShuffle ms (pid +:+ "::" +:+ comp) = a :: b :: rest ∧
    a :: b :: rest ≡ₚ ms ∧
    nextPair pid comp ms h = Some (a, b).
Proof.
  intros Hpid Hlen Hh.
  destruct (stableShuffle_first_two ms (pid +:+ "::" +:+ comp) Hlen)
    as (a & b & rest & Hs).
  exists a, b, rest. split; [done |]. split.
  - rewrite <- Hs. apply stableShuffle_Permutation.
  - unfold nextPair. rewrite nextPair_guard by done.
    rewrite rows_of_no_match by done. simpl. by rewrite Hs.
Qed.

Lemma nextPair_bootstrap_witness :
  ∃ a b rest,
    stableShuffle ["A"; "B"; "C"] ("P1" +:+ "::" +:+ "cautions")
      = a :: b :: rest ∧
    a :: b :: rest ≡ₚ ["A"; "B"; "C"] ∧
    nextPair "P1" "cautions" ["A"; "B"; "C"]
      [mkRow None (Some "P2") (Some "cautions") (Some 1) "A" "B"
         (Some "left") (Some "left") None] = Some (a, b).
Proof.
  apply nextPair_bootstrap.
  - discriminate.
  - simpl. lia.
  - repeat constructor. intros [H _]. discriminate H.
Defined.

(** C3 as stated fails: for participant "P1", component "cautions" and the
    eligible ids A, B, C the opening pair is (B, C), whereas the shuffle
    seeded with the plain concatenation "P1cautions" starts with B, A. *)
Lemma nextPair_bootstrap_plain_seed_counterexample :
  nextPair "P1" "cautions" ["A"; "B"; "C"] [] = Some ("B", "C") ∧
  stableShuffle ["A"; "B"; "C"] ("P1" +:+ "cautions") = ["B"; "A"; "C"] ∧
  ¬ (∃ a b rest,
       stableShuffle ["A"; "B"; "C"] ("P1" +:+ "cautions") = a :: b :: rest ∧
       nextPair "P1" "cautions" ["A"; "B"; "C"] [] = Some (a, b)).
Proof.
  split; [by vm_compute |]. split; [by vm_compute |].
  intros (a & b & rest & Hs & Hn).
  vm_compute in Hs. vm_compute in Hn. congruence.
Qed.

(** ** The scheduler: steady state *)

(** The eligible ids that [nextPair] still offers as challengers. *)
Lemma nextPair_steady pid comp ms h final :
  pid ≠ "" → (2 ≤ length ms)%nat →
  last (rows_of pid comp h) = Some final →
  let rows := rows_of pid comp h in
  let champion := champion_of pid comp (length rows) final in
  let unseen := filter (λ m, (m ∉ appeared_of rows) ∧ (m ≠ champion)) ms in
  (unseen = [] ∧ nextPair pid comp ms h = None) ∨
  (∃ challenger,
     challenger ∈ unseen ∧
     nextPair pid comp ms h = Some (champion, challenger)).
Proof.
  intros Hpid Hlen Hlast. cbv zeta.
  unfold nextPair. rewrite nextPair_guard by done. rewrite Hlast.
  set (rows := rows_of pid comp h).
  set (champion := champion_of pid comp (length rows) final).
  set (unseen := filter (λ m, (m ∉ appeared_of rows) ∧ (m ≠ champion)) ms).
  destruct unseen as [| m unseen'] eqn:Hunseen; [by left |].
  right. rewrite <- Hunseen.
  replace (length unseen =? 0)%nat with false
    by (by rewrite Hunseen).
  destruct (mulberry32 (hash32 (challenger_seed pid comp
                                  (size (appeared_of rows)))))
    as [v seed'] eqn:Hrnd.
  eexists. split; [| done].
  apply list_elem_of_lookup_total_2.
  apply floor_mul_lt.
  - pose proof (mulberry32_range (hash32 (challenger_seed pid comp
                                            (size (appeared_of rows))))) as Hr.
    by rewrite Hrnd in Hr.
  - rewrite Hunseen. simpl. lia.
Qed.

Global Instance trial_le_refl : Reflexive trial_le.
Proof. intros r. unfold trial_le. lia. Qed.

Global Instance trial_le_trans : Transitive trial_le.
Proof. intros a b c. unfold trial_le. lia. Qed.

Lemma rows_of_StronglySorted pid comp h :
  StronglySorted trial_le (rows_of pid comp h).
Proof.
  apply Sorted_StronglySorted; [apply _ |].
  apply array_sort_Sorted; unfold trial_cmp, trial_le; lia.
Qed.

Lemma rows_of_elem_of pid comp h r :
  r ∈ rows_of pid comp h ↔ r ∈ h ∧ row_matches pid comp r.
Proof. rewrite rows_of_Permutation, list_elem_of_filter. tauto. Qed.

Lemma rows_of_length pid comp h :
  length (rows_of pid comp h) = length (filter (row_matches pid comp) h).
Proof. apply array_sort_length. Qed.

Lemma rows_of_last_exists pid comp h :
  Exists (row_matches pid comp) h →
  ∃ final, last (rows_of pid comp h) = Some final.
Proof.
  intros (r & Hr & Hm)%Exists_exists.
  assert (r ∈ rows_of pid comp h) as Hin by (by apply rows_of_elem_of).
  destruct (last (rows_of pid comp h)) as [final |] eqn:Hlast; [eauto |].
  apply last_None in Hlast. rewrite Hlast in Hin. by apply elem_of_nil in Hin.
Qed.

(** The last row of the sorted rows is a row of the history for the
    participant and the component, and no such row has a greater trial id. *)
Lemma rows_of_last_max pid comp h final :
  last (rows_of pid comp h) = Some final →
  final ∈ h ∧ row_matches pid comp final ∧
  ∀ r, r ∈ h → row_matches pid comp r → trial_le r final.
Proof.
  intros Hlast.
  pose proof (last_Some_elem_of _ _ Hlast) as Hin.
  apply rows_of_elem_of in Hin as [Hin Hm]. do 2 (split; [done |]).
  intros r Hr Hrm.
  pose proof (StronglySorted_last trial_le _ _ _
                (rows_of_StronglySorted pid comp h) Hlast) as Hall.
  rewrite Forall_forall in Hall. apply Hall. by apply rows_of_elem_of.
Qed.

Lemma appeared_fold rows (s : gset string) x :
  x ∈ fold_left
        (λ s r, {[ right_method_id r ]} ∪ ({[ left_method_id r ]} ∪ s)) rows s
  ↔ x ∈ s ∨ ∃ r, r ∈ rows ∧ (x = left_method_id r ∨ x = right_method_id r).
Proof.
  revert s. induction rows as [| r rows IH]; intros s; simpl.
  - split; [by left | intros [? | (r & Hr & _)]; [done |]].
    by apply elem_of_nil in Hr.
  - rewrite IH, !elem_of_union, !elem_of_singleton. split.
    + intros [[-> | [-> | Hx]] | (r' & Hr' & Hx)].
      * right. exists r. split; [by left | by right].
      * right. exists r. split; [by left | by left].
      * by left.
      * right. exists r'. split; [by right | done].
    + intros [Hx | (r' & Hr' & Hx)]; [by left; right; right |].
      apply elem_of_cons in Hr' as [-> | Hr'].
      * left. tauto.
      * right. by exists r'.
Qed.

Lemma elem_of_appeared_of rows x :
  x ∈ appeared_of rows ↔
  ∃ r, r ∈ rows ∧ (x = left_method_id r ∨ x = right_method_id r).
Proof.
  unfold appeared_of. rewrite appeared_fold.
  rewrite elem_of_empty. tauto.
Qed.

Lemma champion_of_cases pid comp n final :
  champion_of pid comp n final =
    let value := toLowerCase (stored_outcome final) in
    if decide (value = "left") then left_method_id final
    else if decide (value = "right") then right_method_id final
    else if decide (value = "tie") then
      method_on
        (resolveTiePreferred pid comp (default (Z.of_nat n) (trial_id final))
           (left_method_id final) (right_method_id final))
        (left_method_id final) (right_method_id final)
    else left_method_id final.
Proof.
  unfold champion_of, pref_of. cbv zeta.
  repeat case_decide; try done.
  - by destruct (resolveTiePreferred _ _ _ _ _).
  - by destruct (resolveTiePreferred _ _ _ _ _).
Qed.

(** The methods already compared by the participant for the component:
    [m] is on the left or on the right of one of their rows. *)
Lemma nextPair_steady_compared pid comp ms h final :
  pid ≠ "" → (2 ≤ length ms)%nat →
  last (rows_of pid comp h) = Some final →
  let champion :=
    champion_of pid comp (length (rows_of pid comp h)) final in
  let compared m :=
    ∃ r, r ∈ h ∧ row_matches pid comp r ∧
         (m = left_method_id r ∨ m = right_method_id r) in
  (nextPair pid comp ms h = None ∧
   ∀ m, m ∈ ms → m = champion ∨ compared m) ∨
  (∃ challenger,
     nextPair pid comp ms h = Some (champion, challenger) ∧
     challenger ∈ ms ∧ challenger ≠ champion ∧ ¬ compared challenger).
Proof.
  intros Hpid Hlen Hlast. cbv zeta.
  assert (∀ m, m ∈ appeared_of (rows_of pid comp h) ↔
               ∃ r, r ∈ h ∧ row_matches pid comp r ∧
                    (m = left_method_id r ∨ m = right_method_id r)) as Happ.
  { intros m. rewrite elem_of_appeared_of. split.
    - intros (r & [Hr Hm]%rows_of_elem_of & Hside). by exists r.
    - intros (r & Hr & Hm & Hside). exists r.
      by rewrite rows_of_elem_of. }
  destruct (nextPair_steady pid comp ms h final Hpid Hlen Hlast)
    as [[Hunseen Hnone] | (c & Hc & Hsome)]; cbv zeta in *.
  - left. split; [done |]. intros m Hm.
    destruct (decide (m = champion_of pid comp
                           (length (rows_of pid comp h)) final))
      as [-> | Hne]; [by left |].
    right. apply Happ.
    destruct (decide (m ∈ appeared_of (rows_of pid comp h)))
      as [Hin | Hnin]; [done |].
    assert (m ∈ filter
                  (λ m, (m ∉ appeared_of (rows_of pid comp h)) ∧
                        (m ≠ champion_of pid comp
                               (length (rows_of pid comp h)) final)) ms)
      as Hin by (by apply list_elem_of_filter).
    rewrite Hunseen in Hin. by apply elem_of_nil in Hin.
  - right. exists c. split; [done |].
    apply list_elem_of_filter in Hc as [[Hnin Hne] Hin].
    do 2 (split; [done |]). by rewrite <- Happ.
Qed.

(** C9, amended: with at least one row for the participant and the
    component, the champion comes from the row of highest trial id: its
    stored outcome ([resolved_preferred] when present, otherwise
    [preferred]) is lower-cased first; "left" and "right" name the winner,
    "tie" is resolved by [resolveTiePreferred] on the row's own trial id
    (the number of rows when the row has none) and its two method ids, and
    anything else makes the left method the champion.  The derivation never
    makes [nextPair] fail: it returns a pair that starts with this
    champion, with a challenger that is eligible, is not the champion and
    was not compared yet, whenever such an id exists, and null only when
    every eligible id is the champion or was compared already. *)
Theorem nextPair_champion pid comp ms h :
  pid ≠ "" → (2 ≤ length ms)%nat → Exists (row_matches pid comp) h →
  ∃ final,
    final ∈ h ∧ row_matches pid comp final ∧
    (∀ r, r ∈ h → row_matches pid comp r → trial_le r final) ∧
    let value := toLowerCase (stored_outcome final) in
    let n := length (filter (row_matches pid comp) h) in
    let champion :=
      if decide (value = "left") then left_method_id final
      else if decide (value = "right") then right_method_id final
      else if decide (value = "tie") then
        method_on
          (resolveTiePreferred pid comp
             (default (Z.of_nat n) (trial_id final))
             (left_method_id final) (right_method_id final))
          (left_method_id final) (right_method_id final)
      else left_method_id final in
    let compared m :=
      ∃ r, r ∈ h ∧ row_matches pid comp r ∧
           (m = left_method_id r ∨ m = right_method_id r) in
    (nextPair pid comp ms h = None ∧
     ∀ m, m ∈ ms → m = champion ∨ compared m) ∨
    (∃ challenger,
       nextPair pid comp ms h = Some (champion, challenger) ∧
       challenger ∈ ms ∧ challenger ≠ champion ∧ ¬ compared challenger).
Proof.
  intros Hpid Hlen Hex.
  destruct (rows_of_last_exists pid comp h Hex) as [final Hlast].
  exists final.
  destruct (rows_of_last_max pid comp h final Hlast) as (Hin & Hm & Hmax).
  do 3 (split; [done |]). cbv zeta.
  rewrite <- rows_of_length.
  pose proof (champion_of_cases pid comp (length (rows_of pid comp h)) final)
    as Hch. cbv zeta in Hch. rewrite <- Hch.
  exact (nextPair_steady_compared pid comp ms h final Hpid Hlen Hlast).
Qed.

Lemma nextPair_champion_witness :
  ∃ final,
    final ∈ [mkRow None (Some "P1") (Some "cautions") (Some 1) "A" "B"
               (Some "tie") None None] ∧
    row_matches "P1" "cautions" final ∧
    (∀ r, r ∈ [mkRow None (Some "P1") (Some "cautions") (Some 1) "A" "B"
               (Some "tie") None None] →
          row_matches "P1" "cautions" r → trial_le r final) ∧
    let value := toLowerCase (stored_outcome final) in
    let n := length (filter (row_matches "P1" "cautions")
                       [mkRow None (Some "P1") (Some "cautions") (Some 1) "A" "B"
               (Some "tie") None None]) in
    let champion :=
      if decide (value = "left") then left_method_id final
      else if decide (value = "right") then right_method_id final
      else if decide (value = "tie") then
        method_on
          (resolveTiePreferred "P1" "cautions"
             (default (Z.of_nat n) (trial_id final))
             (left_method_id final) (right_method_id final))
          (left_method_id final) (right_method_id final)
      else left_method_id final in
    let compared m :=
      ∃ r, r ∈ [mkRow None (Some "P1") (Some "cautions") (Some 1) "A" "B"
               (Some "tie") None None] ∧
           row_matches "P1" "cautions" r ∧
           (m = left_method_id r ∨ m = right_method_id r) in
    (nextPair "P1" "cautions" ["A"; "B"; "C"]
       [mkRow None (Some "P1") (Some "cautions") (Some 1) "A" "B"
               (Some "tie") None None] = None ∧
     ∀ m, m ∈ ["A"; "B"; "C"] → m = champion ∨ compared m) ∨
    (∃ challenger,
       nextPair "P1" "cautions" ["A"; "B"; "C"]
         [mkRow None (Some "P1") (Some "cautions") (Some 1) "A" "B"
               (Some "tie") None None] = Some (champion, challenger) ∧
       challenger ∈ ["A"; "B"; "C"] ∧ challenger ≠ champion ∧
       ¬ compared challenger).
Proof.
  apply nextPair_champion.
  - discriminate.
  - simpl. lia.
  - apply Exists_cons_hd. split; reflexivity.
Defined.

(** C9 as stated fails: the stored outcome "RIGHT" is none of "left",
    "right" and "tie", and yet the champion is the right method B of the
    last row, not its left method A. *)
Lemma nextPair_champion_case_counterexample :
  let final :=
    mkRow None (Some "P1") (Some "cautions") (Some 1) "A" "B"
      (Some "right") (Some "RIGHT") None in
  stored_outcome final = "RIGHT" ∧
  stored_outcome final ≠ "left" ∧
  stored_outcome final ≠ "right" ∧
  stored_outcome final ≠ "tie" ∧
  nextPair "P1" "cautions" ["A"; "B"; "C"] [final] = Some ("B", "C") ∧
  ¬ (∃ challenger,
       nextPair "P1" "cautions" ["A"; "B"; "C"] [final]
       = Some (left_method_id final, challenger)).
Proof.
  cbv zeta. split; [done |]. do 3 (split; [discriminate |]).
  split; [by vm_compute |].
  intros [c Hc]. vm_compute in Hc. discriminate Hc.
Qed.

Lemma nextPair_Some_guard pid comp ms h p :
  nextPair pid comp ms h = Some p → pid ≠ "" ∧ (2 ≤ length ms)%nat.
Proof.
  intros Hn. split.
  - intros ->.
    rewrite nextPair_guard_None in Hn by (by left). discriminate Hn.
  - destruct (decide (length ms < 2)%nat) as [Hlt |]; [| lia].
    rewrite nextPair_guard_None in Hn by (by right). discriminate Hn.
Qed.

Lemma nextPair_opening pid comp ms h :
  pid ≠ "" → (2 ≤ length ms)%nat → last (rows_of pid comp h) = None →
  ∃ a b rest,
    stableShuffle ms (pid +:+ "::" +:+ comp) = a :: b :: rest ∧
    nextPair pid comp ms h = Some (a, b).
Proof.
  intros Hpid Hlen Hlast.
  destruct (stableShuffle_first_two ms (pid +:+ "::" +:+ comp) Hlen)
    as (a & b & rest & Hs).
  exists a, b, rest. split; [done |].
  unfold nextPair. rewrite nextPair_guard by done.
  rewrite Hlast. cbv zeta. by rewrite Hs.
Qed.

(** C10: in the steady state the first element of a returned pair is the
    champion computed from the rows alone, whatever the eligible list is;
    the second element always is an eligible id; and there is an input whose
    returned pair starts with an id that is not eligible. *)
Theorem nextPair_champion_unchecked :
  (∀ pid comp ms h final a b,
     last (rows_of pid comp h) = Some final →
     nextPair pid comp ms h = Some (a, b) →
     a = champion_of pid comp (length (rows_of pid comp h)) final ∧ b ∈ ms) ∧
  (∀ pid comp ms h a b, nextPair pid comp ms h = Some (a, b) → b ∈ ms) ∧
  (∃ pid comp ms h a b,
     Exists (row_matches pid comp) h ∧
     nextPair pid comp ms h = Some (a, b) ∧ a ∉ ms).
Proof.
  assert (∀ pid comp ms h final a b,
     last (rows_of pid comp h) = Some final →
     nextPair pid comp ms h = Some (a, b) →
     a = champion_of pid comp (length (rows_of pid comp h)) final ∧ b ∈ ms)
    as Hsteady.
  { intros pid comp ms h final a b Hlast Hn.
    destruct (nextPair_Some_guard _ _ _ _ _ Hn) as [Hpid Hlen].
    destruct (nextPair_steady pid comp ms h final Hpid Hlen Hlast)
      as [[_ Hnone] | (c & Hc & Hsome)]; [congruence |].
    rewrite Hsome in Hn. injection Hn as <- <-. split; [done |].
    by apply list_elem_of_filter in Hc as [_ Hc]. }
  split; [done |]. split.
  - intros pid comp ms h a b Hn.
    destruct (nextPair_Some_guard _ _ _ _ _ Hn) as [Hpid Hlen].
    destruct (last (rows_of pid comp h)) as [final |] eqn:Hlast.
    + by destruct (Hsteady pid comp ms h final a b Hlast Hn).
    + destruct (nextPair_opening pid comp ms h Hpid Hlen Hlast)
        as (a' & b' & rest & Hs & Hsome).
      rewrite Hsome in Hn. injection Hn as <- <-.
      rewrite <- (stableShuffle_Permutation ms (pid +:+ "::" +:+ comp)), Hs.
      rewrite !elem_of_cons. auto.
  - exists "P1", "cautions", ["A"; "B"; "C"],
      [mkRow None (Some "P1") (Some "cautions") (Some 1) "Z" "A"
         (Some "left") (Some "left") None], "Z", "B".
    split; [by apply Exists_cons_hd |].
    split; [by vm_compute |].
    rewrite !elem_of_cons, elem_of_nil.
    intros [H | [H | [H | []]]]; discriminate H.
Qed.

Lemma nextPair_champion_unchecked_witness :
  "Z" = champion_of "P1" "cautions"
          (length (rows_of "P1" "cautions"
             [mkRow None (Some "P1") (Some "cautions") (Some 1) "Z" "A"
                (Some "left") (Some "left") None]))
          (mkRow None (Some "P1") (Some "cautions") (Some 1) "Z" "A"
             (Some "left") (Some "left") None) ∧
  "B" ∈ ["A"; "B"; "C"].
Proof.
  destruct nextPair_champion_unchecked as (Hsteady & _ & _).
  apply (Hsteady "P1" "cautions" ["A"; "B"; "C"]
           [mkRow None (Some "P1") (Some "cautions") (Some 1) "Z" "A"
              (Some "left") (Some "left") None]).
  - reflexivity.
  - vm_compute. reflexivity.
Defined.

(** ** The insertion-ordered map of [mergeHistory] *)

Lemma map_set_keys m k v :
  (map_set m k v).*1 = if decide (k ∈ m.*1) then m.*1 else m.*1 ++ [k].
Proof.
  induction m as [| [k' v'] m IH]; csimpl; [done |].
  destruct (decide (k' = k)) as [-> | Hne]; csimpl.
  - rewrite decide_True by (by left). done.
  - rewrite IH. destruct (decide (k ∈ m.*1)) as [Hin | Hnin].
    + rewrite decide_True by (by right). done.
    + rewrite decide_False; [done |].
      rewrite elem_of_cons. intros [? | ?]; congruence.
Qed.

Lemma map_set_elem_of m k v k' v' :
  (k', v') ∈ map_set m k v → (k' = k ∧ v' = v) ∨ (k', v') ∈ m.
Proof.
  induction m as [| e m IH]; simpl.
  - rewrite list_elem_of_singleton. naive_solver.
  - destruct (decide (e.1 = k)); rewrite !elem_of_cons.
    + intros [[= -> ->] | Hin]; auto.
    + intros [-> | Hin]; auto.
      apply IH in Hin. tauto.
Qed.

Lemma map_set_fresh m k v : k ∉ m.*1 → map_set m k v = m ++ [(k, v)].
Proof.
  induction m as [| e m IH]; simpl; [done |].
  rewrite not_elem_of_cons. intros [Hne Hnin].
  rewrite decide_False by done. by rewrite IH.
Qed.

Lemma map_set_keys_NoDup m k v : NoDup m.*1 → NoDup (map_set m k v).*1.
Proof.
  intros Hm. rewrite map_set_keys. case_decide; [done |].
  apply NoDup_app. split; [done |]. split; [| apply NoDup_singleton].
  intros x Hx ->%list_elem_of_singleton. done.
Qed.

Lemma map_set_keys_elem_of m k v k' :
  k' ∈ (map_set m k v).*1 ↔ k' = k ∨ k' ∈ m.*1.
Proof.
  rewrite map_set_keys. case_decide.
  - split; [by right | by intros [-> | ?]].
  - rewrite elem_of_app, list_elem_of_singleton. tauto.
Qed.

Lemma map_set_keyed m k v :
  Forall (λ e, e.1 = historyKey e.2) m → k = historyKey v →
  Forall (λ e, e.1 = historyKey e.2) (map_set m k v).
Proof.
  intros Hm Hk. apply Forall_forall. intros [k' v'] Hin.
  apply map_set_elem_of in Hin as [[-> ->] | Hin]; [done |].
  rewrite Forall_forall in Hm. by apply (Hm (k', v')).
Qed.

Lemma map_has_true m k : map_has m k = true ↔ k ∈ m.*1.
Proof. unfold map_has. apply bool_decide_eq_true. Qed.

(** The entries after the remote rows. *)
Lemma merge_remote_fold rs m0 :
  let m := fold_left (λ m r, map_set m (historyKey r) r) rs m0 in
  (NoDup m0.*1 → NoDup m.*1) ∧
  (Forall (λ e, e.1 = historyKey e.2) m0 →
   Forall (λ e, e.1 = historyKey e.2) m) ∧
  (∀ k v, (k, v) ∈ m → (k, v) ∈ m0 ∨ v ∈ rs) ∧
  (∀ k, k ∈ m.*1 ↔ k ∈ m0.*1 ∨ k ∈ historyKey <$> rs).
Proof.
  revert m0. induction rs as [| r rs IH]; intros m0; simpl.
  - split; [done |]. split; [done |]. split; [by left |].
    intros k. rewrite elem_of_nil. tauto.
  - destruct (IH (map_set m0 (historyKey r) r)) as (Hnd & Hkey & Hel & Hks).
    split; [| split; [| split]].
    + intros H0. by apply Hnd, map_set_keys_NoDup.
    + intros H0. by apply Hkey, map_set_keyed.
    + intros k v Hin. apply Hel in Hin as [Hin | Hin].
      * apply map_set_elem_of in Hin as [[-> ->] | Hin]; [| by left].
        right. by left.
      * right. by right.
    + intros k. rewrite Hks, map_set_keys_elem_of, elem_of_cons. tauto.
Qed.

(** The entries after the local rows: the entries present before stay, and
    a local row enters only under a key that was absent. *)
Lemma merge_local_fold ls m0 :
  let m := merge_local ls m0 in
  (NoDup m0.*1 → NoDup m.*1) ∧
  (Forall (λ e, e.1 = historyKey e.2) m0 →
   Forall (λ e, e.1 = historyKey e.2) m) ∧
  (∀ k v, (k, v) ∈ m → (k, v) ∈ m0 ∨ (v ∈ ls ∧ historyKey v ∉ m0.*1)) ∧
  (∀ e, e ∈ m0 → e ∈ m) ∧
  (∀ k, k ∈ m.*1 ↔ k ∈ m0.*1 ∨ k ∈ historyKey <$> ls).
Proof.
  unfold merge_local. revert m0.
  induction ls as [| r ls IH]; intros m0; simpl.
  - split; [done |]. split; [done |]. split; [by left |]. split; [done |].
    intros k. rewrite elem_of_nil. tauto.
  - destruct (map_has m0 (historyKey r)) eqn:Hhas.
    + apply map_has_true in Hhas.
      destruct (IH m0) as (Hnd & Hkey & Hel & Hsub & Hks).
      split; [done |]. split; [done |]. split; [| split; [done |]].
      * intros k v Hin. apply Hel in Hin as [Hin | [Hin Hk]]; [by left |].
        right. split; [by right | done].
      * intros k. rewrite Hks, elem_of_cons.
        split; [tauto | intros [? | [-> | ?]]; auto].
    + assert (historyKey r ∉ m0.*1) as Hfresh.
      { intros Hin. apply map_has_true in Hin. congruence. }
      destruct (IH (map_set m0 (historyKey r) r))
        as (Hnd & Hkey & Hel & Hsub & Hks).
      split; [| split; [| split; [| split]]].
      * intros H0. by apply Hnd, map_set_keys_NoDup.
      * intros H0. by apply Hkey, map_set_keyed.
      * intros k v Hin. apply Hel in Hin as [Hin | [Hin Hk]].
        -- apply map_set_elem_of in Hin as [[-> ->] | Hin]; [| by left].
           right. split; [by left | done].
        -- right. split; [by right |].
           intros Hk'. apply Hk, map_set_keys_elem_of. by right.
      * intros e He. apply Hsub. rewrite map_set_fresh by done.
        apply elem_of_app. by left.
      * intros k. rewrite Hks, map_set_keys_elem_of, elem_of_cons. tauto.
Qed.

(** ** The order of the merged log *)

Lemma string_compare_refl s : String.compare s s = Eq.
Proof.
  pose proof (String.compare_antisym s s) as H.
  by destruct (String.compare s s).
Qed.

Lemma string_ltb_le a b : String.ltb a b = true → String.le a b ∧ a ≠ b.
Proof.
  unfold String.ltb, String.le, String.leb. intros Hlt. split.
  - by destruct (String.compare a b).
  - intros ->. by rewrite string_compare_refl in Hlt.
Qed.

Lemma string_ltb_neither a b :
  String.ltb a b = false → String.ltb b a = false → a = b.
Proof.
  unfold String.ltb. rewrite (String.compare_antisym b a).
  destruct (String.compare a b) eqn:Hc; simpl; try done.
  intros _ _. by apply String.compare_eq_iff.
Qed.

Lemma merge_cmp_le x y : merge_cmp x y ≤ 0 → row_le x y.
Proof.
  unfold merge_cmp, row_le. cbv zeta.
  destruct (String.ltb _ _) eqn:Hxy.
  - intros _. left. by apply string_ltb_le.
  - destruct (String.ltb (default "" (component y)) _) eqn:Hyx; [lia |].
    intros Ht. right. split; [by apply string_ltb_neither | lia].
Qed.

Lemma merge_cmp_gt x y : 0 < merge_cmp x y → row_le y x.
Proof.
  unfold merge_cmp, row_le. cbv zeta.
  destruct (String.ltb _ _) eqn:Hxy; [lia |].
  destruct (String.ltb (default "" (component y)) _) eqn:Hyx.
  - intros _. left. by apply string_ltb_le.
  - intros Ht. right. split; [symmetry; by apply string_ltb_neither | lia].
Qed.

Lemma merge_cmp_total x y : 0 < merge_cmp x y → merge_cmp y x ≤ 0.
Proof.
  unfold merge_cmp. cbv zeta.
  destruct (String.ltb _ _) eqn:Hxy; [lia |].
  destruct (String.ltb (default "" (component y)) _) eqn:Hyx; lia.
Qed.

Global Instance row_le_trans : Transitive row_le.
Proof.
  intros a b c. unfold row_le. cbv zeta.
  intros [[Hab Hne] | [Hab Ht]] [[Hbc Hne'] | [Hbc Ht']].
  - left. split; [by etrans |]. intros Heq. rewrite <- Heq in Hbc.
    by apply Hne, (anti_symm String.le).
  - left. by rewrite <- Hbc.
  - left. by rewrite Hab.
  - right. split; [congruence | lia].
Qed.

(** ** History merge *)

Lemma merge_entries localRows remoteRows :
  let m := merge_local localRows (merge_remote remoteRows) in
  NoDup m.*1 ∧
  Forall (λ e, e.1 = historyKey e.2) m ∧
  (∀ v, v ∈ m.*2 →
     v ∈ remoteRows ∨
     (v ∈ localRows ∧ historyKey v ∉ historyKey <$> remoteRows)) ∧
  (∀ k, k ∈ historyKey <$> remoteRows →
     ∃ v, v ∈ m.*2 ∧ v ∈ remoteRows ∧ historyKey v = k) ∧
  (∀ k, k ∈ historyKey <$> localRows → k ∉ historyKey <$> remoteRows →
     ∃ v, v ∈ m.*2 ∧ v ∈ localRows ∧ historyKey v = k).
Proof.
  cbv zeta. unfold merge_remote.
  destruct (merge_remote_fold remoteRows []) as (Rnd & Rkey & Rel & Rks).
  cbv zeta in Rnd, Rkey, Rel, Rks.
  set (mr := fold_left (λ m r, map_set m (historyKey r) r) remoteRows [])
    in *.
  destruct (merge_local_fold localRows mr) as (Lnd & Lkey & Lel & Lsub & Lks).
  cbv zeta in Lnd, Lkey, Lel, Lsub, Lks.
  set (m := merge_local localRows mr) in *.
  assert (NoDup mr.*1) as Hmr_nd by (apply Rnd; constructor).
  assert (Forall (λ e, e.1 = historyKey e.2) mr) as Hmr_key
    by (apply Rkey; constructor).
  assert (∀ k, k ∈ mr.*1 ↔ k ∈ historyKey <$> remoteRows) as Hmr_ks.
  { intros k. rewrite Rks. csimpl. rewrite elem_of_nil. tauto. }
  assert (∀ k v, (k, v) ∈ mr → v ∈ remoteRows) as Hmr_el.
  { intros k v Hin. apply Rel in Hin as [Hin | Hin]; [| done].
    by apply elem_of_nil in Hin. }
  assert (∀ k v, (k, v) ∈ m → k = historyKey v) as Hm_key.
  { intros k v Hin. specialize (Lkey Hmr_key).
    rewrite Forall_forall in Lkey. by apply (Lkey (k, v)). }
  split; [by apply Lnd |]. split; [by apply Lkey |].
  split; [| split].
  - intros v Hv. apply list_elem_of_fmap in Hv as ([k v'] & -> & Hin).
    simpl. apply Lel in Hin as [Hin | [Hin Hk]].
    + left. by eapply Hmr_el.
    + right. split; [done |]. by rewrite <- Hmr_ks.
  - intros k Hk. apply Hmr_ks, list_elem_of_fmap in Hk as ([k' v] & -> & Hin).
    simpl. exists v. split; [| split].
    + apply list_elem_of_fmap. exists (k', v). split; [done |]. by apply Lsub.
    + by eapply Hmr_el.
    + symmetry. apply Hm_key. by apply Lsub.
  - intros k Hk Hnr.
    assert (k ∈ m.*1) as Hkm by (apply Lks; by right).
    apply list_elem_of_fmap in Hkm as ([k' v] & -> & Hin). simpl in *.
    exists v. split; [| split].
    + apply list_elem_of_fmap. by exists (k', v).
    + pose proof Hin as Hin'. apply Lel in Hin' as [Hin' | [Hin' _]]; [| done].
      exfalso. apply Hnr, Hmr_ks, list_elem_of_fmap. by exists (k', v).
    + symmetry. by apply Hm_key.
Qed.

Lemma keyed_values_keys (m : RowMap) :
  Forall (λ e, e.1 = historyKey e.2) m → historyKey <$> m.*2 = m.*1.
Proof.
  induction 1 as [| [k v] m Hk _ IH]; csimpl; [done |].
  simpl in Hk. by rewrite IH, Hk.
Qed.

Lemma mergeHistory_keys_NoDup localRows remoteRows :
  NoDup (historyKey <$> mergeHistory localRows remoteRows).
Proof.
  unfold mergeHistory. cbv zeta.
  destruct (merge_entries localRows remoteRows) as (Hnd & Hkey & _).
  cbv zeta in Hnd, Hkey.
  rewrite array_sort_Permutation, keyed_values_keys; done.
Qed.

Lemma mergeHistory_Sorted localRows remoteRows :
  Sorted (λ x y, merge_cmp x y ≤ 0) (mergeHistory localRows remoteRows).
Proof. apply array_sort_Sorted; [done | apply merge_cmp_total]. Qed.

(** The merge in terms of the key string
    [participant_id::component::trial_id] (an absent field is empty).  Every
    merged row is a remote row, or a local row whose key no remote row has;
    for every key of a remote row the result holds a remote row with that
    key; a local row whose key no remote row has is represented by a local
    row with that key; no two merged rows share a key; and the result is
    sorted by component (lexicographic), then by trial id (numeric). *)
Lemma mergeHistory_by_key localRows remoteRows :
  let merged := mergeHistory localRows remoteRows in
  (∀ r, r ∈ merged →
     r ∈ remoteRows ∨
     (r ∈ localRows ∧ historyKey r ∉ historyKey <$> remoteRows)) ∧
  (∀ r0, r0 ∈ remoteRows →
     ∃ r, r ∈ merged ∧ r ∈ remoteRows ∧ historyKey r = historyKey r0) ∧
  (∀ l0, l0 ∈ localRows → historyKey l0 ∉ historyKey <$> remoteRows →
     ∃ l, l ∈ merged ∧ l ∈ localRows ∧ historyKey l = historyKey l0) ∧
  NoDup (historyKey <$> merged) ∧
  StronglySorted row_le merged.
Proof.
  cbv zeta.
  destruct (merge_entries localRows remoteRows)
    as (_ & _ & Hel & Hremote & Hlocal). cbv zeta in Hel, Hremote, Hlocal.
  assert (∀ r, r ∈ mergeHistory localRows remoteRows ↔
               r ∈ (merge_local localRows (merge_remote remoteRows)).*2)
    as Hperm.
  { intros r. unfold mergeHistory, map_values. cbv zeta.
    by rewrite array_sort_Permutation. }
  split; [| split; [| split; [| split]]].
  - intros r Hr. by apply Hel, Hperm.
  - intros r0 Hr0.
    destruct (Hremote (historyKey r0)) as (v & Hv & Hvr & Hk).
    { by apply list_elem_of_fmap_2. }
    exists v. by rewrite Hperm.
  - intros l0 Hl0 Hfresh.
    destruct (Hlocal (historyKey l0)) as (v & Hv & Hvl & Hk);
      [by apply list_elem_of_fmap_2 | done |].
    exists v. by rewrite Hperm.
  - apply mergeHistory_keys_NoDup.
  - apply Sorted_StronglySorted; [apply _ |].
    apply array_sort_Sorted; [apply merge_cmp_le | apply merge_cmp_gt].
Qed.

(** *** The key string and the tuple *)

Lemma pretty_N_char_not_colon x : not_colon (pretty_N_char x) = true.
Proof. unfold pretty_N_char. by repeat case_match. Qed.

Lemma pretty_N_go_not_colon x s :
  string_forall not_colon s = true →
  string_forall not_colon (pretty_N_go x s) = true.
Proof.
  revert s. induction (N.lt_wf_0 x) as [x _ IH]; intros s Hs.
  assert (x = 0 ∨ 0 < x)%N as [-> | Hx] by lia.
  - by rewrite pretty_N_go_0.
  - rewrite pretty_N_go_step by done. apply IH.
    + by apply N.div_lt.
    + simpl. by rewrite pretty_N_char_not_colon.
Qed.

Lemma pretty_N_not_colon (x : N) : string_forall not_colon (pretty x) = true.
Proof.
  unfold pretty, pretty_N. case_decide; [done |].
  by apply pretty_N_go_not_colon.
Qed.

(** The decimal numeral of an integer has no colon. *)
Lemma number_to_string_not_colon t :
  string_forall not_colon (number_to_string t) = true.
Proof.
  unfold number_to_string, pretty, pretty_Z. destruct t as [| p | p].
  - done.
  - apply pretty_N_not_colon.
  - simpl. apply pretty_N_not_colon.
Qed.

Lemma colon_inside c d d' :
  d = c +:+ "::" +:+ d' → string_forall not_colon d = false.
Proof.
  intros ->. rewrite string_forall_app, !app_String. simpl.
  by rewrite andb_false_r.
Qed.

(** A string [p ++ "::" ++ x] whose head [p] has no colon determines [p]
    and [x]. *)
Lemma split_at_first_colons p1 p2 x1 x2 :
  string_forall not_colon p1 = true →
  string_forall not_colon p2 = true →
  p1 +:+ "::" +:+ x1 = p2 +:+ "::" +:+ x2 →
  p1 = p2 ∧ x1 = x2.
Proof.
  revert p2. induction p1 as [| a p1 IH]; intros [| b p2] Hp1 Hp2 Heq;
    rewrite ?app_String, ?app_empty in Heq.
  - by simplify_eq.
  - injection Heq as <- _. simpl in Hp2. done.
  - injection Heq as -> _. simpl in Hp1. done.
  - injection Heq as -> Heq. simpl in Hp1, Hp2.
    apply andb_prop in Hp1 as [_ Hp1]. apply andb_prop in Hp2 as [_ Hp2].
    destruct (IH p2 Hp1 Hp2 Heq) as [-> ->]. done.
Qed.

(** A string [c ++ "::" ++ d] whose tail [d] has no colon determines [c]
    and [d]. *)
Lemma split_at_last_colons c1 c2 d1 d2 :
  string_forall not_colon d1 = true →
  string_forall not_colon d2 = true →
  c1 +:+ "::" +:+ d1 = c2 +:+ "::" +:+ d2 →
  c1 = c2 ∧ d1 = d2.
Proof.
  intros Hd1 Hd2. revert c2.
  induction c1 as [| x c1 IH]; intros [| y c2] Heq;
    rewrite ?app_String, ?app_empty in Heq.
  - by simplify_eq.
  - injection Heq as <- Heq.
    destruct c2 as [| z c2]; rewrite ?app_String, ?app_empty in Heq.
    + injection Heq as ->. simpl in Hd1. done.
    + injection Heq as <- Heq.
      by rewrite (colon_inside c2 d1 d2) in Hd1.
  - injection Heq as -> Heq.
    destruct c1 as [| z c1]; rewrite ?app_String, ?app_empty in Heq.
    + injection Heq as <-. simpl in Hd2. done.
    + injection Heq as -> Heq. symmetry in Heq.
      by rewrite (colon_inside c1 d2 d1) in Hd2.
  - injection Heq as -> Heq. destruct (IH c2 Heq) as [-> ->]. done.
Qed.

(** Rows with the same tuple have the same key string. *)
Lemma row_tuple_historyKey r r' :
  row_tuple r = row_tuple r' → historyKey r = historyKey r'.
Proof. unfold row_tuple, historyKey. by intros [= -> -> ->]. Qed.

(** On rows as the program stores them the key string determines the
    tuple. *)
Lemma historyKey_row_tuple r r' :
  keyed_row r → keyed_row r' →
  historyKey r = historyKey r' → row_tuple r = row_tuple r'.
Proof.
  intros ((p & Hp & Hpc) & [c Hc] & [n Hn])
         ((p' & Hp' & Hpc') & [c' Hc'] & [n' Hn']).
  unfold historyKey, row_tuple.
  rewrite Hp, Hc, Hn, Hp', Hc', Hn'. simpl. intros Heq.
  apply split_at_first_colons in Heq as [-> Heq]; [| done | done].
  apply split_at_last_colons in Heq
    as [-> Heq]; auto using number_to_string_not_colon.
  by apply (inj pretty) in Heq as ->.
Qed.

Lemma not_elem_of_keys_tuples (r : Row) (rs : list Row) :
  historyKey r ∉ historyKey <$> rs → row_tuple r ∉ row_tuple <$> rs.
Proof.
  intros Hk (r' & Ht & Hin)%list_elem_of_fmap. apply Hk.
  apply list_elem_of_fmap. exists r'. split; [| done].
  by apply row_tuple_historyKey.
Qed.

Lemma NoDup_keys_tuples (rs : list Row) :
  NoDup (historyKey <$> rs) → NoDup (row_tuple <$> rs).
Proof.
  induction rs as [| r rs IH]; csimpl; [constructor |].
  intros [Hr Hnd]%NoDup_cons. constructor; [| by apply IH].
  by apply not_elem_of_keys_tuples.
Qed.

(** C5: on rows as the program stores them (the three key fields present,
    participant ids without a colon) [mergeHistory] keys each row by its
    tuple (participant_id, component, trial_id).  Every merged row is a
    remote row, or a local row whose tuple no remote row has; for every
    remote row the result holds a remote row with its tuple, so the remote
    version of a tuple present in both inputs; a local row whose tuple no
    remote row has is represented by a local row with that tuple; no two
    merged rows share a tuple; and the result is sorted by component
    (lexicographic), then by trial id (numeric). *)
Theorem mergeHistory_spec localRows remoteRows :
  Forall keyed_row (remoteRows ++ localRows) →
  let merged := mergeHistory localRows remoteRows in
  (∀ r, r ∈ merged →
     r ∈ remoteRows ∨
     (r ∈ localRows ∧ row_tuple r ∉ row_tuple <$> remoteRows)) ∧
  (∀ r0, r0 ∈ remoteRows →
     ∃ r, r ∈ merged ∧ r ∈ remoteRows ∧ row_tuple r = row_tuple r0) ∧
  (∀ l0, l0 ∈ localRows → row_tuple l0 ∉ row_tuple <$> remoteRows →
     ∃ l, l ∈ merged ∧ l ∈ localRows ∧ row_tuple l = row_tuple l0) ∧
  NoDup (row_tuple <$> merged) ∧
  StronglySorted row_le merged.
Proof.
  intros Hrows. cbv zeta.
  apply Forall_app in Hrows as [Hremote Hlocal].
  rewrite Forall_forall in Hremote, Hlocal.
  destruct (mergeHistory_by_key localRows remoteRows)
    as (Hel & Hrem & Hloc & Hnd & Hsorted). cbv zeta in Hel, Hrem, Hloc, Hnd.
  split; [| split; [| split; [| split]]].
  - intros r Hr. destruct (Hel r Hr) as [Hin | [Hin Hfresh]]; [by left |].
    right. split; [done |]. by apply not_elem_of_keys_tuples.
  - intros r0 Hr0. destruct (Hrem r0 Hr0) as (r & Hr & Hrr & Hk).
    exists r. do 2 (split; [done |]).
    apply historyKey_row_tuple; auto.
  - intros l0 Hl0 Hfresh.
    destruct (Hloc l0 Hl0) as (l & Hl & Hll & Hk).
    + intros (r' & Hk & Hin)%list_elem_of_fmap. apply Hfresh.
      apply list_elem_of_fmap. exists r'. split; [| done].
      apply historyKey_row_tuple; auto.
    + exists l. do 2 (split; [done |]).
      apply historyKey_row_tuple; auto.
  - by apply NoDup_keys_tuples.
  - done.
Qed.

Lemma mergeHistory_spec_witness :
  ∃ r,
    r ∈ mergeHistory
          [mkRow None (Some "P00001") (Some "cautions") (Some 3) "A" "B"
             (Some "left") (Some "left") (Some "local")]
          [mkRow None (Some "P00001") (Some "cautions") (Some 3) "A" "B"
             (Some "right") (Some "right") (Some "remote")] ∧
    r ∈ [mkRow None (Some "P00001") (Some "cautions") (Some 3) "A" "B"
           (Some "right") (Some "right") (Some "remote")] ∧
    row_tuple r =
      row_tuple
        (mkRow None (Some "P00001") (Some "cautions") (Some 3) "A" "B"
           (Some "right") (Some "right") (Some "remote")).
Proof.
  destruct (mergeHistory_spec
              [mkRow None (Some "P00001") (Some "cautions") (Some 3) "A" "B"
                 (Some "left") (Some "left") (Some "local")]
              [mkRow None (Some "P00001") (Some "cautions") (Some 3) "A" "B"
                 (Some "right") (Some "right") (Some "remote")])
    as (_ & Hremote & _).
  - repeat constructor; simpl; eauto.
  - apply Hremote. apply elem_of_cons. left. reflexivity.
Defined.

(** The condition on the participant ids is needed: the rows
    ("a::b", "c", 1) and ("a", "b::c", 1) have different tuples and the
    same key string, so of two such remote rows only the second is kept. *)
Lemma historyKey_collision :
  let ra := mkRow None (Some "a::b") (Some "c") (Some 1) "A" "B"
              (Some "left") (Some "left") (Some "remote") in
  let rb := mkRow None (Some "a") (Some "b::c") (Some 1) "A" "B"
              (Some "left") (Some "left") None in
  row_tuple ra ≠ row_tuple rb ∧
  historyKey ra = historyKey rb ∧
  ¬ keyed_row ra ∧
  mergeHistory [] [ra; rb] = [rb].
Proof.
  cbv zeta. split; [discriminate |]. split; [done |].
  split; [| by vm_compute].
  intros ((p & [= <-] & Hp) & _). vm_compute in Hp. done.
Qed.

(** ** Idempotence of the merge *)

Lemma merge_remote_fresh rs m0 :
  NoDup (m0.*1 ++ (historyKey <$> rs)) →
  fold_left (λ m r, map_set m (historyKey r) r) rs m0
  = m0 ++ ((λ r, (historyKey r, r)) <$> rs).
Proof.
  revert m0. induction rs as [| r rs IH]; intros m0 Hnd; csimpl.
  - by rewrite app_nil_r.
  - csimpl in Hnd.
    assert (historyKey r ∉ m0.*1) as Hfresh.
    { apply NoDup_app in Hnd as (_ & Hdisj & _).
      intros Hin. apply (Hdisj _ Hin). by left. }
    rewrite map_set_fresh by done. rewrite IH.
    + by rewrite <- app_assoc.
    + rewrite fmap_app. csimpl. by rewrite <- app_assoc.
Qed.

Lemma merge_local_present ls m0 :
  Forall (λ r, historyKey r ∈ m0.*1) ls → merge_local ls m0 = m0.
Proof.
  unfold merge_local. induction 1 as [| r ls Hr _ IH]; simpl; [done |].
  apply map_has_true in Hr. by rewrite Hr.
Qed.

(** C6: merging the merged log with itself gives the merged log again, the
    same rows in the same order. *)
Theorem mergeHistory_idempotent (A B : list Row) :
  mergeHistory (mergeHistory A B) (mergeHistory A B) = mergeHistory A B.
Proof.
  set (M := mergeHistory A B).
  assert (NoDup (historyKey <$> M)) as Hnd
    by apply mergeHistory_keys_NoDup.
  assert (Sorted (λ x y, merge_cmp x y ≤ 0) M) as Hsorted
    by apply mergeHistory_Sorted.
  unfold mergeHistory at 1. cbv zeta. unfold merge_remote.
  rewrite merge_remote_fresh by done. simpl.
  rewrite merge_local_present.
  - unfold map_values. rewrite <- list_fmap_compose.
    change (snd ∘ (λ r, (historyKey r, r))) with (@id Row).
    rewrite list_fmap_id. by apply array_sort_sorted.
  - apply Forall_forall. intros r Hr.
    rewrite <- list_fmap_compose. by apply (list_elem_of_fmap_2 historyKey).
Qed.

(** ** The set of methods that appeared *)

Lemma appeared_of_Permutation rows rows' :
  rows ≡ₚ rows' → appeared_of rows = appeared_of rows'.
Proof.
  intros Hperm. apply set_eq. intros x. rewrite !elem_of_appeared_of.
  by setoid_rewrite Hperm.
Qed.

Lemma appeared_of_snoc rows r :
  appeared_of (rows ++ [r]) =
  {[ right_method_id r ]} ∪ ({[ left_method_id r ]} ∪ appeared_of rows).
Proof. unfold appeared_of. by rewrite fold_left_app. Qed.

Lemma champion_of_side pid comp n final :
  champion_of pid comp n final = left_method_id final ∨
  champion_of pid comp n final = right_method_id final.
Proof.
  unfold champion_of. cbv zeta. repeat case_decide; auto.
Qed.

Lemma champion_appeared pid comp h n final :
  last (rows_of pid comp h) = Some final →
  champion_of pid comp n final ∈ appeared_of (rows_of pid comp h).
Proof.
  intros Hlast. apply elem_of_appeared_of. exists final.
  split; [by apply last_Some_elem_of |]. apply champion_of_side.
Qed.

(** ** Length of the tournament *)

Lemma filter_snoc_vote pid comp h l r row :
  vote_for pid comp l r row →
  filter (row_matches pid comp) (h ++ [row])
  = filter (row_matches pid comp) h ++ [row].
Proof.
  intros (Hp & Hc & _). rewrite filter_app. f_equal.
  by rewrite filter_cons_True.
Qed.

Lemma appeared_of_rows_of pid comp h :
  appeared_of (rows_of pid comp h)
  = appeared_of (filter (row_matches pid comp) h).
Proof. apply appeared_of_Permutation, rows_of_Permutation. Qed.

(** After [k ≥ 1] rounds exactly [k + 1] methods have appeared, all of them
    eligible. *)
Lemma tournament_invariant pid comp ms h k :
  pid ≠ "" → NoDup ms → (2 ≤ length ms)%nat →
  tournament pid comp ms h k →
  length (filter (row_matches pid comp) h) = k ∧
  ((1 ≤ k)%nat →
   appeared_of (filter (row_matches pid comp) h) ⊆ list_to_set ms ∧
   size (appeared_of (filter (row_matches pid comp) h)) = S k).
Proof.
  intros Hpid Hnd Hlen.
  induction 1 as [h Hh | h k l r row Ht [IHlen IHapp] Hnext Hvote].
  - rewrite filter_no_match by done. split; [done | lia].
  - rewrite (filter_snoc_vote pid comp h l r row Hvote).
    split; [rewrite length_app; simpl; lia |]. intros _.
    rewrite appeared_of_snoc.
    destruct Hvote as (_ & _ & -> & -> & _).
    destruct (last (rows_of pid comp h)) as [final |] eqn:Hlast.
    + (* steady state: the champion has appeared, the challenger has not *)
      assert (1 ≤ k)%nat as Hk.
      { destruct k; [| lia]. apply nil_length_inv in IHlen.
        unfold rows_of in Hlast. by rewrite IHlen in Hlast. }
      destruct (IHapp Hk) as [Hsub Hsize].
      destruct (nextPair_steady pid comp ms h final Hpid Hlen Hlast)
        as [[_ Hnone] | (c & Hc & Hsome)]; [congruence |].
      rewrite Hsome in Hnext. injection Hnext as <- <-.
      pose proof (champion_appeared pid comp h
                    (length (rows_of pid comp h)) final Hlast) as Hch.
      apply list_elem_of_filter in Hc as [[Hnew _] Hcms].
      rewrite appeared_of_rows_of in Hch, Hnew.
      set (A := appeared_of (filter (row_matches pid comp) h)) in *.
      set (ch := champion_of pid comp (length (rows_of pid comp h)) final)
        in *.
      assert ({[ch]} ∪ A = A) as ->.
      { apply subseteq_union_1_L. by apply singleton_subseteq_l. }
      split.
      * apply union_least; [| done].
        apply singleton_subseteq_l, elem_of_list_to_set. done.
      * rewrite size_union by (by apply disjoint_singleton_l).
        rewrite size_singleton, Hsize. lia.
    + (* opening round: the first two entries of the shuffle *)
      destruct (nextPair_opening pid comp ms h Hpid Hlen Hlast)
        as (a & b & rest & Hs & Hsome).
      rewrite Hsome in Hnext. injection Hnext as <- <-.
      apply last_None in Hlast.
      assert (filter (row_matches pid comp) h = []) as Hnil.
      { apply Permutation_nil_r. rewrite <- Hlast.
        symmetry. apply rows_of_Permutation. }
      rewrite Hnil in IHlen |- *. simpl in IHlen. subst k.
      pose proof (stableShuffle_Permutation ms (pid +:+ "::" +:+ comp))
        as Hperm. rewrite Hs in Hperm.
      assert (NoDup (a :: b :: rest)) as Hnd' by (by rewrite Hperm).
      apply NoDup_cons in Hnd' as [Hab _].
      apply not_elem_of_cons in Hab as [Hab _].
      assert (a ∈ ms) as Ha by (rewrite <- Hperm; by left).
      assert (b ∈ ms) as Hb by (rewrite <- Hperm; right; by left).
      change (appeared_of []) with (∅ : gset string).
      rewrite !union_empty_r_L.
      split.
      * apply union_least;
          apply singleton_subseteq_l, elem_of_list_to_set; done.
      * rewrite size_union by (by apply disjoint_singleton_l, not_elem_of_singleton).
        by rewrite !size_singleton.
Qed.

(** C1: for a non-empty participant id and [N ≥ 2] distinct eligible ids,
    a tournament that starts without rows for the participant and the
    component and feeds every returned pair back as a vote lasts exactly
    [N - 1] rounds: [nextPair] returns a pair after fewer than [N - 1]
    rounds and null after [N - 1] rounds. *)
Theorem tournament_length pid comp ms h k :
  pid ≠ "" → NoDup ms → (2 ≤ length ms)%nat →
  tournament pid comp ms h k →
  (k ≤ length ms - 1)%nat ∧
  ((k < length ms - 1)%nat → ∃ l r, nextPair pid comp ms h = Some (l, r)) ∧
  (k = (length ms - 1)%nat → nextPair pid comp ms h = None).
Proof.
  intros Hpid Hnd Hlen Ht.
  destruct (tournament_invariant pid comp ms h k Hpid Hnd Hlen Ht)
    as [Hrows Happ].
  destruct (last (rows_of pid comp h)) as [final |] eqn:Hlast.
  - assert (1 ≤ k)%nat as Hk.
    { destruct k; [| lia]. apply nil_length_inv in Hrows.
      unfold rows_of in Hlast. by rewrite Hrows in Hlast. }
    destruct (Happ Hk) as [Hsub Hsize].
    rewrite <- appeared_of_rows_of in Hsub, Hsize.
    pose proof (subseteq_size _ _ Hsub) as Hle.
    rewrite size_list_to_set in Hle by done.
    pose proof (champion_appeared pid comp h
                  (length (rows_of pid comp h)) final Hlast) as Hch.
    destruct (nextPair_steady pid comp ms h final Hpid Hlen Hlast)
      as [[Hunseen Hnone] | (c & Hc & Hsome)].
    + (* no challenger left: every eligible id has appeared *)
      split; [lia |]. split; [| done]. intros Hlt. exfalso.
      assert (list_to_set ms ⊆ appeared_of (rows_of pid comp h)) as Hall.
      { intros m Hm%elem_of_list_to_set.
        destruct (decide (m ∈ appeared_of (rows_of pid comp h)))
          as [| Hnew]; [done |]. exfalso.
        assert (m ∈ filter
                  (λ m, (m ∉ appeared_of (rows_of pid comp h)) ∧
                        (m ≠ champion_of pid comp
                               (length (rows_of pid comp h)) final)) ms)
          as Hin.
        { apply list_elem_of_filter. split; [| done]. split; [done |].
          intros ->. done. }
        rewrite Hunseen in Hin. by apply elem_of_nil in Hin. }
      apply subseteq_size in Hall.
      rewrite size_list_to_set in Hall by done. lia.
    + (* a challenger is left: some eligible id has not appeared *)
      apply list_elem_of_filter in Hc as [[Hnew _] Hcms].
      assert (size (appeared_of (rows_of pid comp h)) ≠ length ms) as Hne.
      { intros Heq. apply Hnew.
        assert (appeared_of (rows_of pid comp h) = list_to_set ms) as ->.
        { apply set_subseteq_size_eq; [done |].
          rewrite size_list_to_set by done. lia. }
        by apply elem_of_list_to_set. }
      split; [lia |]. split; [eauto |]. lia.
  - assert (k = 0)%nat as ->.
    { apply last_None in Hlast. rewrite <- Hrows, <- rows_of_length.
      by rewrite Hlast. }
    destruct (nextPair_opening pid comp ms h Hpid Hlen Hlast)
      as (a & b & rest & _ & Hsome).
    split; [lia |]. split; [eauto |]. lia.
Qed.

Lemma tournament_length_witness :
  nextPair "P1" "cautions" ["A"; "B"; "C"]
    [mkRow None (Some "P1") (Some "cautions") (Some 1) "B" "C"
       (Some "right") (Some "right") None;
     mkRow None (Some "P1") (Some "cautions") (Some 2) "C" "A"
       (Some "tie") (Some "left") None] = None.
Proof.
  apply (tournament_length "P1" "cautions" ["A"; "B"; "C"] _ 2).
  - discriminate.
  - apply (bool_decide_unpack _). vm_compute. exact I.
  - simpl. lia.
  - apply (tournament_round "P1" "cautions" _
             [mkRow None (Some "P1") (Some "cautions") (Some 1) "B" "C"
                (Some "right") (Some "right") None] 1 "C" "A").
    + apply (tournament_round "P1" "cautions" _ [] 0 "B" "C").
      * apply tournament_start. constructor.
      * vm_compute. reflexivity.
      * repeat split. right. reflexivity.
    + vm_compute. reflexivity.
    + repeat split. left. reflexivity.
  - reflexivity.
Defined.

(** ** Independence from the generators of other calls *)

Lemma call_rng_run g σ seed :
  σ !! g = Some seed →
  call_rng g σ = ((mulberry32 seed).1, <[g := (mulberry32 seed).2]> σ).
Proof.
  intros Hg. unfold call_rng.
  rewrite (list_lookup_total_correct _ _ _ Hg).
  by destruct (mulberry32 seed).
Qed.

Lemma shuffle_loop_st_run {T} i (a : list T) g σ seed :
  σ !! g = Some seed →
  ∃ seed', shuffle_loop_st i a g σ = (shuffle_loop i a seed, <[g := seed']> σ).
Proof.
  revert a σ seed. induction i as [| i IH]; intros a σ seed Hg;
    cbn [shuffle_loop_st shuffle_loop].
  - exists seed. by rewrite list_insert_id.
  - unfold mbind, eff_bind. rewrite (call_rng_run g σ seed Hg).
    destruct (mulberry32 seed) as [v s1]. cbn [fst snd].
    destruct (IH (swap a (S i) (floor_mul v (i + 1 + 1))) (<[g := s1]> σ) s1)
      as [seed' Hrun].
    { apply list_lookup_insert_eq. by eapply lookup_lt_Some. }
    exists seed'. replace (i + 1 + 1)%nat with (S i + 1)%nat in Hrun by lia.
    by rewrite Hrun, list_insert_insert_eq.
Qed.

Lemma new_rng_lookup (seed : Z) (σ : Store) :
  (σ ++ [seed]) !! length σ = Some seed.
Proof. by rewrite list_lookup_middle. Qed.

Lemma new_rng_update (seed seed' : Z) (σ : Store) :
  <[length σ := seed']> (σ ++ [seed]) = σ ++ [seed'].
Proof.
  rewrite insert_app_r_alt by done. by rewrite Nat.sub_diag.
Qed.

(** Each function returns the value of its store-free counterpart and
    leaves the generators that existed before as they were. *)
Lemma stableShuffle_st_run {T} (arr : list T) seedStr σ :
  ∃ ext, stableShuffle_st arr seedStr σ = (stableShuffle arr seedStr, σ ++ ext).
Proof.
  unfold stableShuffle_st, stableShuffle, mbind, eff_bind, new_rng.
  destruct (shuffle_loop_st_run (length arr - 1) arr (length σ)
              (σ ++ [hash32 seedStr]) (hash32 seedStr)
              (new_rng_lookup _ _)) as [seed' Hrun].
  exists [seed']. by rewrite Hrun, new_rng_update.
Qed.

Lemma resolveTiePreferred_st_run pid comp t l r σ :
  ∃ ext,
    resolveTiePreferred_st pid comp t l r σ
    = (resolveTiePreferred pid comp t l r, σ ++ ext).
Proof.
  unfold resolveTiePreferred_st, resolveTiePreferred. cbv zeta.
  destruct (bool_decide (l ∈ TOPA_FAVORITES)),
    (bool_decide (r ∈ TOPA_FAVORITES)); cbn [andb negb];
    try (exists []; by rewrite app_nil_r).
  unfold mbind, eff_bind, new_rng.
  rewrite (call_rng_run _ _ _ (new_rng_lookup _ _)), new_rng_update.
  destruct (mulberry32 (hash32 (tie_seed pid comp t l r))) as [v seed'].
  by exists [seed'].
Qed.

Lemma champion_of_st_run pid comp n final σ :
  ∃ ext,
    champion_of_st pid comp n final σ
    = (champion_of pid comp n final, σ ++ ext).
Proof.
  unfold champion_of_st, champion_of. cbv zeta.
  destruct (decide (pref_of final = "left"));
    [exists []; by rewrite app_nil_r |].
  destruct (decide (pref_of final = "right"));
    [exists []; by rewrite app_nil_r |].
  destruct (decide (pref_of final = "tie"));
    [| exists []; by rewrite app_nil_r].
  unfold mbind, eff_bind.
  destruct (resolveTiePreferred_st_run pid comp
              (default (Z.of_nat n) (trial_id final))
              (left_method_id final) (right_method_id final) σ)
    as [ext ->].
  by exists ext.
Qed.

Lemma nextPair_st_run pid comp ms h σ :
  ∃ ext, nextPair_st pid comp ms h σ = (nextPair pid comp ms h, σ ++ ext).
Proof.
  unfold nextPair_st, nextPair.
  destruct (bool_decide (pid = "") || (length ms <? 2)%nat);
    [exists []; by rewrite app_nil_r |].
  cbv zeta. destruct (last (rows_of pid comp h)) as [final |].
  - unfold mbind, eff_bind.
    destruct (champion_of_st_run pid comp (length (rows_of pid comp h))
                final σ) as [ext ->].
    set (champion := champion_of pid comp (length (rows_of pid comp h)) final).
    set (unseen := filter _ ms).
    destruct (length unseen =? 0)%nat; [by exists ext |].
    unfold new_rng.
    rewrite (call_rng_run _ _ _ (new_rng_lookup _ _)), new_rng_update.
    destruct (mulberry32 _) as [v seed'].
    exists (ext ++ [seed']). by rewrite app_assoc.
  - unfold mbind, eff_bind.
    destruct (stableShuffle_st_run ms (pid +:+ "::" +:+ comp) σ) as [ext ->].
    by exists ext.
Qed.

(** C2: [resolveTiePreferred] and [nextPair] are deterministic.  Whatever
    generators other calls have made and advanced (the store the call starts
    from), a call returns the value of the store-free function of its
    arguments, so two calls with identical arguments return identical
    results; and a call leaves the generators that existed before it
    untouched. *)
Theorem resolveTie_nextPair_deterministic
    pid comp t l r ms h (σ1 σ2 : Store) :
  (resolveTiePreferred_st pid comp t l r σ1).1
    = (resolveTiePreferred_st pid comp t l r σ2).1 ∧
  (nextPair_st pid comp ms h σ1).1 = (nextPair_st pid comp ms h σ2).1 ∧
  (resolveTiePreferred_st pid comp t l r σ1).1
    = resolveTiePreferred pid comp t l r ∧
  (nextPair_st pid comp ms h σ1).1 = nextPair pid comp ms h ∧
  σ1 `prefix_of` (resolveTiePreferred_st pid comp t l r σ1).2 ∧
  σ1 `prefix_of` (nextPair_st pid comp ms h σ1).2.
Proof.
  destruct (resolveTiePreferred_st_run pid comp t l r σ1) as [e1 ->].
  destruct (resolveTiePreferred_st_run pid comp t l r σ2) as [e2 ->].
  destruct (nextPair_st_run pid comp ms h σ1) as [e3 ->].
  destruct (nextPair_st_run pid comp ms h σ2) as [e4 ->].
  cbn [fst snd]. repeat split; by apply prefix_app_r.
Qed.

(** * Further properties of the scheduler *)

Lemma nextPair_rows_of pid comp ms h h' :
  rows_of pid comp h = rows_of pid comp h' →
  nextPair pid comp ms h = nextPair pid comp ms h'.
Proof. intros Hrows. unfold nextPair. by rewrite Hrows. Qed.

Lemma nextPair_cases pid comp ms h a b :
  nextPair pid comp ms h = Some (a, b) →
  (last (rows_of pid comp h) = None ∧
   ∃ rest, stableShuffle ms (pid +:+ "::" +:+ comp) = a :: b :: rest) ∨
  (∃ final,
     last (rows_of pid comp h) = Some final ∧
     a = champion_of pid comp (length (rows_of pid comp h)) final ∧
     b ∈ ms ∧ (b ∉ appeared_of (rows_of pid comp h)) ∧ b ≠ a).
Proof.
  intros Hn. destruct (nextPair_Some_guard _ _ _ _ _ Hn) as [Hpid Hlen].
  destruct (last (rows_of pid comp h)) as [final |] eqn:Hlast.
  - right. exists final. split; [done |].
    destruct (nextPair_steady pid comp ms h final Hpid Hlen Hlast)
      as [[_ Hnone] | (c & Hc & Hsome)]; [congruence |].
    rewrite Hsome in Hn. injection Hn as <- <-.
    apply list_elem_of_filter in Hc as [[Hnew Hne] Hcms]. done.
  - left. split; [done |].
    destruct (nextPair_opening pid comp ms h Hpid Hlen Hlast)
      as (a' & b' & rest & Hs & Hsome).
    rewrite Hsome in Hn. injection Hn as <- <-. by exists rest.
Qed.

(** X1: with pairwise distinct eligible ids, a returned pair always holds
    two different methods. *)
Theorem nextPair_distinct pid comp ms h a b :
  NoDup ms → nextPair pid comp ms h = Some (a, b) → a ≠ b.
Proof.
  intros Hnd Hn.
  destruct (nextPair_cases _ _ _ _ _ _ Hn)
    as [[_ [rest Hs]] | (final & _ & _ & _ & _ & Hne)]; [| done].
  pose proof (stableShuffle_Permutation ms (pid +:+ "::" +:+ comp)) as Hperm.
  rewrite Hs in Hperm. rewrite <- Hperm in Hnd.
  apply NoDup_cons in Hnd as [Hab _]. apply not_elem_of_cons in Hab. tauto.
Qed.

Lemma nextPair_distinct_witness : "Z" ≠ "B".
Proof.
  apply (nextPair_distinct "P1" "cautions" ["A"; "B"; "C"]
           [mkRow None (Some "P1") (Some "cautions") (Some 1) "Z" "A"
              (Some "left") (Some "left") None]).
  - apply (bool_decide_unpack _). vm_compute. exact I.
  - vm_compute. reflexivity.
Defined.

(** X2: the second method of a returned pair is new: it occurs on neither
    side of any earlier row of the participant and the component. *)
Theorem nextPair_challenger_fresh pid comp ms h a b r :
  nextPair pid comp ms h = Some (a, b) →
  r ∈ h → row_matches pid comp r →
  b ≠ left_method_id r ∧ b ≠ right_method_id r.
Proof.
  intros Hn Hr Hm.
  assert (r ∈ rows_of pid comp h) as Hin by (by apply rows_of_elem_of).
  destruct (nextPair_cases _ _ _ _ _ _ Hn)
    as [[Hnone _] | (final & _ & _ & _ & Hnew & _)].
  - apply last_None in Hnone. rewrite Hnone in Hin.
    by apply elem_of_nil in Hin.
  - split; intros ->; apply Hnew, elem_of_appeared_of; exists r; auto.
Qed.

Lemma nextPair_challenger_fresh_witness : "A" ≠ "B" ∧ "A" ≠ "C".
Proof.
  apply (nextPair_challenger_fresh "P1" "cautions" ["A"; "B"; "C"]
           [mkRow None (Some "P1") (Some "cautions") (Some 1) "B" "C"
              (Some "right") (Some "right") None] "C" "A"
           (mkRow None (Some "P1") (Some "cautions") (Some 1) "B" "C"
              (Some "right") (Some "right") None)).
  - vm_compute. reflexivity.
  - apply elem_of_cons. left. reflexivity.
  - split; reflexivity.
Defined.

Lemma NoDup_fmap_elem_inj {A B} (f : A → B) (l : list A) x y :
  NoDup (f <$> l) → x ∈ l → y ∈ l → f x = f y → x = y.
Proof.
  induction l as [| z l IH]; csimpl; intros Hnd Hx Hy Hxy.
  - by apply elem_of_nil in Hx.
  - apply NoDup_cons in Hnd as [Hz Hnd].
    apply elem_of_cons in Hx as [-> | Hx], Hy as [-> | Hy]; auto.
    + exfalso. apply Hz. rewrite Hxy. by apply list_elem_of_fmap_2.
    + exfalso. apply Hz. rewrite <- Hxy. by apply list_elem_of_fmap_2.
Qed.

Lemma nextPair_same_rows pid comp ms h h' :
  filter (row_matches pid comp) h ≡ₚ filter (row_matches pid comp) h' →
  NoDup ((λ r, default 0 (trial_id r)) <$> filter (row_matches pid comp) h) →
  nextPair pid comp ms h = nextPair pid comp ms h'.
Proof.
  intros Hperm Hnd. apply nextPair_rows_of.
  assert (rows_of pid comp h ≡ₚ rows_of pid comp h') as Hrows.
  { by rewrite !rows_of_Permutation. }
  apply (StronglySorted_unique_strong trial_le);
    [| apply rows_of_StronglySorted .. | done].
  intros x1 x2 Hx1 Hx2 H12 H21.
  rewrite <- Hrows in Hx2. rewrite rows_of_Permutation in Hx1, Hx2.
  apply (NoDup_fmap_elem_inj _ _ _ _ Hnd Hx1 Hx2).
  unfold trial_le in *. lia.
Qed.

(** X3: when the rows of the participant and the component carry pairwise
    distinct trial ids, the answer depends only on which of those rows the
    history holds: neither the rows of other participants and of other
    components nor the order in which the history stores the rows
    influences the pair. *)
Theorem nextPair_order_independent pid comp ms h h' :
  filter (row_matches pid comp) h ≡ₚ filter (row_matches pid comp) h' →
  NoDup ((λ r, default 0 (trial_id r)) <$> filter (row_matches pid comp) h) →
  nextPair pid comp ms h = nextPair pid comp ms h'.
Proof. apply nextPair_same_rows. Qed.

Lemma nextPair_order_independent_witness :
  nextPair "P1" "cautions" ["A"; "B"; "C"; "D"]
    [mkRow None (Some "P1") (Some "cautions") (Some 1) "B" "C"
       (Some "right") (Some "right") None;
     mkRow None (Some "P2") (Some "cautions") (Some 1) "A" "D"
       (Some "left") (Some "left") None;
     mkRow None (Some "P1") (Some "cautions") (Some 2) "C" "A"
       (Some "left") (Some "left") None]
  = nextPair "P1" "cautions" ["A"; "B"; "C"; "D"]
      [mkRow None (Some "P1") (Some "cautions") (Some 2) "C" "A"
         (Some "left") (Some "left") None;
       mkRow None (Some "P1") (Some "cautions") (Some 1) "B" "C"
         (Some "right") (Some "right") None].
Proof.
  apply nextPair_order_independent.
  - apply Permutation_swap.
  - apply (bool_decide_unpack _). vm_compute. exact I.
Defined.

Lemma favorite_rank_inj l r :
  favored l → favored r → favorite_rank l = favorite_rank r → l = r.
Proof. intros [-> | [-> | ->]] [-> | [-> | ->]]; by vm_compute. Qed.

(** X4: when at least one of the two compared methods is among G, H and I,
    the method that a tie keeps does not depend on the side on which it is
    shown: exchanging left and right keeps the same method. *)
Theorem resolveTie_side_independent pid comp t pid' comp' t' l r :
  favored l ∨ favored r →
  method_on (resolveTiePreferred pid comp t l r) l r
  = method_on (resolveTiePreferred pid' comp' t' r l) r l.
Proof.
  intros Hfav.
  destruct (decide (favored l)) as [Hl | Hl],
    (decide (favored r)) as [Hr | Hr]; [| | | tauto].
  - rewrite !resolveTie_both by done.
    destruct (Z.leb_spec (favorite_rank l) (favorite_rank r)),
      (Z.leb_spec (favorite_rank r) (favorite_rank l)); simpl; try done; [| lia].
    apply favorite_rank_inj; [done .. | lia].
  - unfold resolveTiePreferred.
    by rewrite (favored_decide l Hl), (not_favored_decide r Hr).
  - unfold resolveTiePreferred.
    by rewrite (not_favored_decide l Hl), (favored_decide r Hr).
Qed.

Lemma resolveTie_side_independent_witness :
  method_on (resolveTiePreferred "P1" "cautions" 1 "G" "I") "G" "I"
  = method_on (resolveTiePreferred "P2" "user_profile" 7 "I" "G") "I" "G".
Proof. apply resolveTie_side_independent. left. left. reflexivity. Defined.

(** X5: [stableShuffle] rearranges its input: the result has the same
    elements with the same multiplicities, hence the same length, and no
    repetition when the input has none. *)
Theorem stableShuffle_rearranges {T} (arr : list T) seedStr :
  stableShuffle arr seedStr ≡ₚ arr ∧
  length (stableShuffle arr seedStr) = length arr ∧
  (NoDup arr → NoDup (stableShuffle arr seedStr)).
Proof.
  pose proof (stableShuffle_Permutation arr seedStr) as Hperm.
  split; [done |]. split; [by rewrite Hperm | by rewrite Hperm].
Qed.

Lemma stableShuffle_rearranges_witness :
  NoDup (stableShuffle ["A"; "B"; "C"; "D"] "P00001::cautions").
Proof.
  destruct (stableShuffle_rearranges ["A"; "B"; "C"; "D"] "P00001::cautions")
    as (_ & _ & Hnd).
  apply Hnd. apply (bool_decide_unpack _). vm_compute. exact I.
Defined.

(** * Casting votes *)

Lemma sort_insert_not_nil {A} (cmp : A → A → Z) y l : sort_insert cmp y l ≠ [].
Proof. destruct l; simpl; [done |]. by destruct (cmp y a <=? 0). Qed.

Lemma sort_insert_last {A} (cmp : A → A → Z) y l x :
  last l = Some x → cmp y x ≤ 0 → last (sort_insert cmp y l) = Some x.
Proof.
  intros Hlast Hyx. induction l as [| z l IH]; [done |]. simpl.
  destruct (Z.leb_spec (cmp y z) 0) as [Hle | Hgt].
  - by rewrite last_cons_cons.
  - destruct l as [| z' l].
    + simpl in Hlast. simplify_eq. lia.
    + rewrite last_cons_cons in Hlast. specialize (IH Hlast).
      destruct (sort_insert cmp y (z' :: l)) as [| w l'] eqn:Hins.
      * by apply sort_insert_not_nil in Hins.
      * by rewrite last_cons_cons.
Qed.

(** An element appended with a key that is no smaller than the others stays
    last after the sort. *)
Lemma array_sort_snoc_last {A} (cmp : A → A → Z) l x :
  Forall (λ y, cmp y x ≤ 0) l → last (array_sort cmp (l ++ [x])) = Some x.
Proof.
  unfold array_sort. rewrite foldr_app. simpl.
  induction 1 as [| y l Hy _ IH]; simpl; [done |].
  by apply sort_insert_last.
Qed.

Lemma fold_max_trial_ge rows (init : Z) :
  init ≤ fold_left (λ mx r, Z.max mx (default 0 (trial_id r))) rows init ∧
  Forall (λ r, default 0 (trial_id r)
               ≤ fold_left (λ mx r, Z.max mx (default 0 (trial_id r)))
                   rows init) rows.
Proof.
  revert init. induction rows as [| r rows IH]; intros init; simpl.
  - split; [lia | constructor].
  - destruct (IH (Z.max init (default 0 (trial_id r)))) as [Hinit Hall].
    split; [lia |]. constructor; [lia | done].
Qed.

(** The trial id of a new vote is positive and exceeds the trial id of every
    earlier row of the participant and the component. *)
Lemma next_trial_id_gt pid comp h :
  1 ≤ next_trial_id pid comp h ∧
  ∀ r, r ∈ h → row_matches pid comp r →
       default 0 (trial_id r) < next_trial_id pid comp h.
Proof.
  unfold next_trial_id.
  destruct (fold_max_trial_ge (filter (row_matches pid comp) h) 0)
    as [H0 Hall].
  split; [lia |]. intros r Hr Hm. rewrite Forall_forall in Hall.
  assert (r ∈ filter (row_matches pid comp) h) as Hin
    by (by apply list_elem_of_filter).
  specialize (Hall r Hin). lia.
Qed.

Lemma vote_row_matches pid comp h l r p fb :
  row_matches pid comp (vote_row pid comp h l r p fb).
Proof. by split. Qed.

Lemma vote_row_vote_for pid comp h l r p fb :
  vote_for pid comp l r (vote_row pid comp h l r p fb).
Proof.
  repeat split.
  unfold vote_row. simpl. destruct (vote_resolved _ _ _ _ _ _); auto.
Qed.

Lemma rows_of_vote_last pid comp h l r p fb :
  last (rows_of pid comp (h ++ [vote_row pid comp h l r p fb]))
  = Some (vote_row pid comp h l r p fb).
Proof.
  unfold rows_of.
  rewrite (filter_snoc_vote pid comp h l r _ (vote_row_vote_for _ _ _ _ _ _ _)).
  apply array_sort_snoc_last. apply Forall_forall. intros y Hy.
  apply list_elem_of_filter in Hy as [Hm Hy].
  destruct (next_trial_id_gt pid comp h) as [_ Hgt].
  specialize (Hgt y Hy Hm). unfold trial_cmp. simpl. lia.
Qed.

Lemma champion_of_vote_row pid comp n h l r p fb :
  champion_of pid comp n (vote_row pid comp h l r p fb)
  = method_on (vote_resolved pid comp (next_trial_id pid comp h) l r p) l r.
Proof.
  unfold champion_of, pref_of, stored_outcome, vote_row. simpl.
  by destruct (vote_resolved _ _ _ _ _ _).
Qed.

Lemma current_pair_Some pid comp ms h pair :
  current_pair pid comp ms h = Some pair →
  nextPair pid comp ms h = Some pair ∧ comp ≠ "".
Proof.
  unfold current_pair. destruct (2 <=? length ms)%nat; [| done].
  destruct (bool_decide_reflect (comp = "")); simpl; [done |]. done.
Qed.

Lemma vote_Some token pid comp ms h p fb l r :
  token ≠ "" → current_pair pid comp ms h = Some (l, r) →
  vote token pid comp ms h p fb = h ++ [vote_row pid comp h l r p fb].
Proof.
  intros Htoken Hpair. unfold vote. rewrite Hpair.
  destruct (current_pair_Some _ _ _ _ _ Hpair) as [Hn _].
  destruct (nextPair_Some_guard _ _ _ _ _ Hn) as [Hpid _].
  by rewrite !bool_decide_eq_false_2.
Qed.

(** X6: the method kept by a vote is the champion of the next round.  When
    the page shows the pair [(l, r)] and the participant answers, the new
    row is the last row that [nextPair] reads: the next call returns null
    or a pair that starts with the method on the resolved side of the
    answer. *)
Theorem vote_keeps_champion token pid comp ms h p fb l r :
  token ≠ "" → current_pair pid comp ms h = Some (l, r) →
  let h' := vote token pid comp ms h p fb in
  let kept :=
    method_on (vote_resolved pid comp (next_trial_id pid comp h) l r p) l r in
  last (rows_of pid comp h') = Some (vote_row pid comp h l r p fb) ∧
  (nextPair pid comp ms h' = None ∨
   ∃ challenger, nextPair pid comp ms h' = Some (kept, challenger)).
Proof.
  intros Htoken Hpair. cbv zeta.
  rewrite (vote_Some token pid comp ms h p fb l r) by done.
  pose proof (rows_of_vote_last pid comp h l r p fb) as Hlast.
  split; [done |].
  destruct (current_pair_Some _ _ _ _ _ Hpair) as [Hn _].
  destruct (nextPair_Some_guard _ _ _ _ _ Hn) as [Hpid Hlen].
  destruct (nextPair_steady pid comp ms _ _ Hpid Hlen Hlast)
    as [[_ Hnone] | (c & _ & Hsome)]; [by left |].
  right. exists c. by rewrite Hsome, champion_of_vote_row.
Qed.

Lemma vote_keeps_champion_witness :
  last (rows_of "P1" "cautions"
          (vote "tok" "P1" "cautions" ["A"; "B"; "C"] [] PrefRight ""))
  = Some (vote_row "P1" "cautions" [] "B" "C" PrefRight "") ∧
  (nextPair "P1" "cautions" ["A"; "B"; "C"]
     (vote "tok" "P1" "cautions" ["A"; "B"; "C"] [] PrefRight "") = None ∨
   ∃ challenger,
     nextPair "P1" "cautions" ["A"; "B"; "C"]
       (vote "tok" "P1" "cautions" ["A"; "B"; "C"] [] PrefRight "")
     = Some ("C", challenger)).
Proof.
  apply (vote_keeps_champion "tok" "P1" "cautions" ["A"; "B"; "C"] []
           PrefRight "" "B" "C").
  - discriminate.
  - vm_compute. reflexivity.
Defined.

(** X7: replaying a vote gives the outcome that was stored.  The champion
    that [nextPair] derives from a row written by [vote] is the same when
    the stored [resolved_preferred] is dropped and the outcome is inferred
    again from [preferred]; for a tie the second resolution uses the same
    trial id and the same two methods as the first. *)
Theorem vote_replay_consistent pid comp n h l r p fb :
  let row := vote_row pid comp h l r p fb in
  let legacy :=
    mkRow (vote_id row) (participant_id row) (component row) (trial_id row)
      (left_method_id row) (right_method_id row) (preferred row) None
      (feedback row) in
  champion_of pid comp n legacy = champion_of pid comp n row.
Proof.
  cbv zeta. rewrite champion_of_vote_row.
  unfold champion_of, pref_of, stored_outcome, vote_row. simpl.
  destruct p; simpl; try done.
  by destruct (resolveTiePreferred _ _ _ _ _).
Qed.

(** ** Sessions *)

(** A tournament is over exactly after [N - 1] rounds. *)
Lemma tournament_pair pid comp ms h k :
  pid ≠ "" → NoDup ms → (2 ≤ length ms)%nat →
  tournament pid comp ms h k →
  (k ≤ length ms - 1)%nat ∧
  (nextPair pid comp ms h = None ↔ k = (length ms - 1)%nat).
Proof.
  intros Hpid Hnd Hlen Ht.
  destruct (tournament_invariant pid comp ms h k Hpid Hnd Hlen Ht)
    as [Hrows Happ].
  destruct (last (rows_of pid comp h)) as [final |] eqn:Hlast.
  - assert (1 ≤ k)%nat as Hk.
    { destruct k; [| lia]. apply nil_length_inv in Hrows.
      unfold rows_of in Hlast. by rewrite Hrows in Hlast. }
    destruct (Happ Hk) as [Hsub Hsize].
    rewrite <- appeared_of_rows_of in Hsub, Hsize.
    pose proof (subseteq_size _ _ Hsub) as Hle.
    rewrite size_list_to_set in Hle by done.
    split; [lia |].
    pose proof (champion_appeared pid comp h
                  (length (rows_of pid comp h)) final Hlast) as Hch.
    destruct (nextPair_steady pid comp ms h final Hpid Hlen Hlast)
      as [[Hunseen Hnone] | (c & Hc & Hsome)].
    + split; [intros _ | done].
      assert (list_to_set ms ⊆ appeared_of (rows_of pid comp h)) as Hall.
      { intros m Hm%elem_of_list_to_set.
        destruct (decide (m ∈ appeared_of (rows_of pid comp h)))
          as [| Hnew]; [done |]. exfalso.
        eapply elem_of_nil. rewrite <- Hunseen.
        apply list_elem_of_filter. split; [| done]. split; [done |].
        by intros ->. }
      apply subseteq_size in Hall.
      rewrite size_list_to_set in Hall by done. lia.
    + rewrite Hsome. split; [done |]. intros Hk'. exfalso.
      apply list_elem_of_filter in Hc as [[Hnew _] Hcms]. apply Hnew.
      assert (appeared_of (rows_of pid comp h) = list_to_set ms) as Heq.
      { apply set_subseteq_size_eq; [done |].
        rewrite size_list_to_set by done. lia. }
      rewrite Heq. by apply elem_of_list_to_set.
  - assert (k = 0)%nat as ->.
    { apply last_None in Hlast. rewrite <- Hrows, <- rows_of_length.
      by rewrite Hlast. }
    destruct (nextPair_opening pid comp ms h Hpid Hlen Hlast)
      as (a & b & rest & _ & Hsome).
    split; [lia |]. rewrite Hsome. split; [done | lia].
Qed.

Lemma fold_max_numbered rows (n : nat) :
  trial_id <$> rows = (λ i, Some (Z.of_nat i)) <$> seq (S n) (length rows) →
  fold_left (λ mx r, Z.max mx (default 0 (trial_id r))) rows (Z.of_nat n)
  = Z.of_nat (n + length rows).
Proof.
  revert n. induction rows as [| r rows IH]; intros n; csimpl.
  - intros _. f_equal. lia.
  - intros [= Hr Hrows]. rewrite Hr. simpl.
    replace (Z.max (Z.of_nat n) (Z.of_nat (S n))) with (Z.of_nat (S n))
      by lia.
    rewrite (IH (S n)) by done. f_equal. lia.
Qed.

Lemma next_trial_id_numbered pid comp h k :
  trial_id <$> filter (row_matches pid comp) h
    = (λ i, Some (Z.of_nat i)) <$> seq 1 k →
  next_trial_id pid comp h = Z.of_nat (S k).
Proof.
  intros Hnum. unfold next_trial_id.
  assert (length (filter (row_matches pid comp) h) = k) as Hlen.
  { rewrite <- (length_fmap trial_id), Hnum, length_fmap. apply length_seq. }
  rewrite <- Hlen in Hnum.
  pose proof (fold_max_numbered _ 0 Hnum) as Hmax.
  change (Z.of_nat 0) with 0 in Hmax. rewrite Hmax, Hlen. lia.
Qed.

Lemma session_state_start pid comp ms h :
  Forall (λ r, ¬ row_matches pid comp r) h → session_state pid comp ms h 0.
Proof.
  intros Hh. split; [by constructor |].
  rewrite filter_no_match by done. by split.
Qed.

(** One answer: a vote when the tournament is running, nothing after it. *)
Lemma session_state_vote token pid comp ms h k p fb :
  token ≠ "" → pid ≠ "" → comp ≠ "" → NoDup ms → (2 ≤ length ms)%nat →
  session_state pid comp ms h k →
  (k < length ms - 1 ∧
   session_state pid comp ms (vote token pid comp ms h p fb) (S k))%nat ∨
  (k = length ms - 1 ∧ vote token pid comp ms h p fb = h)%nat.
Proof.
  intros Htoken Hpid Hcomp Hnd Hlen (Ht & Hnum & Hids).
  destruct (tournament_pair pid comp ms h k Hpid Hnd Hlen Ht) as [Hk Hover].
  assert (current_pair pid comp ms h = nextPair pid comp ms h) as Hcur.
  { unfold current_pair. apply Nat.leb_le in Hlen. rewrite Hlen.
    by rewrite bool_decide_eq_false_2. }
  destruct (nextPair pid comp ms h) as [[l r] |] eqn:Hn.
  - left. split.
    { destruct (decide (k = length ms - 1)%nat) as [Heq |]; [| lia].
      apply Hover in Heq. done. }
    rewrite (vote_Some token pid comp ms h p fb l r) by done.
    pose proof (vote_row_vote_for pid comp h l r p fb) as Hvote.
    split; [by eapply tournament_round |].
    rewrite (filter_snoc_vote pid comp h l r _ Hvote).
    split.
    + rewrite fmap_app, Hnum, seq_S, fmap_app. f_equal. csimpl.
      by rewrite (next_trial_id_numbered pid comp h k Hnum).
    + apply Forall_app. split; [done |]. constructor; [| constructor].
      by exists (next_trial_id pid comp h).
  - right. split; [by apply Hover |]. unfold vote. by rewrite Hcur.
Qed.

Lemma session_state_answers token pid comp ms answers h k :
  token ≠ "" → pid ≠ "" → comp ≠ "" → NoDup ms → (2 ≤ length ms)%nat →
  session_state pid comp ms h k →
  session_state pid comp ms (session token pid comp ms answers h)
    (Nat.min (k + length answers) (length ms - 1)).
Proof.
  intros Htoken Hpid Hcomp Hnd Hlen. revert h k.
  induction answers as [| [p fb] answers IH]; intros h k Hst; simpl.
  - destruct Hst as (Ht & Hrest).
    destruct (tournament_pair pid comp ms h k Hpid Hnd Hlen Ht) as [Hk _].
    replace (Nat.min (k + 0) (length ms - 1)) with k by lia. by split.
  - destruct (session_state_vote token pid comp ms h k p fb
                Htoken Hpid Hcomp Hnd Hlen Hst) as [[Hk Hst'] | [Hk Hsame]].
    + replace (Nat.min (k + S (length answers)) (length ms - 1))
        with (Nat.min (S k + length answers) (length ms - 1)) by lia.
      by apply IH.
    + rewrite Hsame.
      replace (Nat.min (k + S (length answers)) (length ms - 1))
        with (Nat.min (k + length answers) (length ms - 1)) by lia.
      by apply IH.
Qed.

Lemma session_from_start token pid comp ms answers h :
  token ≠ "" → pid ≠ "" → comp ≠ "" → NoDup ms → (2 ≤ length ms)%nat →
  Forall (λ r, ¬ row_matches pid comp r) h →
  session_state pid comp ms (session token pid comp ms answers h)
    (Nat.min (length answers) (length ms - 1)).
Proof.
  intros Htoken Hpid Hcomp Hnd Hlen Hh.
  apply (session_state_answers token pid comp ms answers h 0); try done.
  by apply session_state_start.
Qed.

Lemma session_state_seen pid comp ms h k :
  session_state pid comp ms h k → seen pid comp h = k.
Proof.
  intros (_ & Hnum & _). unfold seen.
  rewrite <- (length_fmap trial_id), Hnum, length_fmap. apply length_seq.
Qed.

Lemma session_state_done token pid comp ms answers h :
  token ≠ "" → pid ≠ "" → comp ≠ "" → NoDup ms → (2 ≤ length ms)%nat →
  session_state pid comp ms h (length ms - 1) →
  session token pid comp ms answers h = h.
Proof.
  intros Htoken Hpid Hcomp Hnd Hlen Hst.
  induction answers as [| [p fb] answers IH]; simpl; [done |].
  destruct (session_state_vote token pid comp ms h _ p fb
              Htoken Hpid Hcomp Hnd Hlen Hst) as [[Hk _] | [_ Hsame]]; [lia |].
  by rewrite Hsame.
Qed.

(** X8: in a session that starts without rows for the participant and the
    component, the votes get the trial ids 1, 2, 3, ... in the order in
    which they are cast, without gap or repetition. *)
Theorem session_trial_ids token pid comp ms answers h :
  token ≠ "" → pid ≠ "" → comp ≠ "" → NoDup ms → (2 ≤ length ms)%nat →
  Forall (λ r, ¬ row_matches pid comp r) h →
  trial_id <$>
    filter (row_matches pid comp) (session token pid comp ms answers h)
  = (λ i, Some (Z.of_nat i)) <$>
      seq 1 (Nat.min (length answers) (length ms - 1)).
Proof.
  intros Htoken Hpid Hcomp Hnd Hlen Hh.
  by destruct (session_from_start token pid comp ms answers h
                 Htoken Hpid Hcomp Hnd Hlen Hh) as (_ & Hnum & _).
Qed.

Lemma session_trial_ids_witness :
  trial_id <$>
    filter (row_matches "P1" "cautions")
      (session "tok" "P1" "cautions" ["A"; "B"; "C"; "D"]
         [(PrefRight, ""); (PrefTie, "close call")] [])
  = [Some 1; Some 2].
Proof.
  apply (session_trial_ids "tok" "P1" "cautions" ["A"; "B"; "C"; "D"]
           [(PrefRight, ""); (PrefTie, "close call")] []).
  - discriminate.
  - discriminate.
  - discriminate.
  - apply (bool_decide_unpack _). vm_compute. exact I.
  - simpl. lia.
  - constructor.
Defined.

(** X9: the progress of a session.  After [n] answers the page has seen
    [min n (N - 1)] comparisons, never more than [total]; it reports the
    component as done exactly from [N - 1] answers on; and answers given
    after that leave the history as it is. *)
Theorem session_progress token pid comp ms answers h :
  token ≠ "" → pid ≠ "" → comp ≠ "" → NoDup ms → (2 ≤ length ms)%nat →
  Forall (λ r, ¬ row_matches pid comp r) h →
  let h' := session token pid comp ms answers h in
  seen pid comp h' = Nat.min (length answers) (total ms) ∧
  (isDone pid comp ms h' = true ↔ (total ms ≤ length answers)%nat) ∧
  ((total ms ≤ length answers)%nat →
   ∀ more, session token pid comp ms (answers ++ more) h = h').
Proof.
  intros Htoken Hpid Hcomp Hnd Hlen Hh. cbv zeta.
  assert (total ms = length ms - 1)%nat as -> by (unfold total; lia).
  pose proof (session_from_start token pid comp ms answers h
                Htoken Hpid Hcomp Hnd Hlen Hh) as Hst.
  split; [by apply (session_state_seen pid comp ms) |].
  destruct Hst as (Ht & Hrest).
  destruct (tournament_pair pid comp ms _ _ Hpid Hnd Hlen Ht) as [_ Hover].
  split.
  - unfold isDone, current_pair. apply Nat.leb_le in Hlen. rewrite Hlen.
    rewrite (bool_decide_eq_false_2 (comp = "")) by done. simpl.
    rewrite bool_decide_eq_true, Hover. lia.
  - intros Hn more. unfold session. rewrite fold_left_app.
    apply (session_state_done token pid comp ms more); try done.
    replace (length ms - 1)%nat
      with (Nat.min (length answers) (length ms - 1)) by lia.
    by split.
Qed.

Lemma session_progress_witness :
  seen "P1" "cautions"
    (session "tok" "P1" "cautions" ["A"; "B"; "C"]
       [(PrefRight, ""); (PrefTie, ""); (PrefLeft, "")] [])
  = Nat.min 3 (total ["A"; "B"; "C"]) ∧
  (isDone "P1" "cautions" ["A"; "B"; "C"]
     (session "tok" "P1" "cautions" ["A"; "B"; "C"]
        [(PrefRight, ""); (PrefTie, ""); (PrefLeft, "")] []) = true
   ↔ (total ["A"; "B"; "C"] ≤ 3)%nat) ∧
  ((total ["A"; "B"; "C"] ≤ 3)%nat →
   ∀ more,
     session "tok" "P1" "cautions" ["A"; "B"; "C"]
       ([(PrefRight, ""); (PrefTie, ""); (PrefLeft, "")] ++ more) []
     = session "tok" "P1" "cautions" ["A"; "B"; "C"]
         [(PrefRight, ""); (PrefTie, ""); (PrefLeft, "")] []).
Proof.
  apply (session_progress "tok" "P1" "cautions" ["A"; "B"; "C"]
           [(PrefRight, ""); (PrefTie, ""); (PrefLeft, "")] []).
  - discriminate.
  - discriminate.
  - discriminate.
  - apply (bool_decide_unpack _). vm_compute. exact I.
  - simpl. lia.
  - constructor.
Defined.

Lemma makeVoteId_trial_inj pid comp t t' :
  makeVoteId pid comp t = makeVoteId pid comp t' → t = t'.
Proof.
  unfold makeVoteId. intros Heq.
  apply (inj (String.app pid)), (inj (String.app "__")) in Heq.
  apply split_at_separator in Heq
    as [_ Ht]; auto using number_to_string_not_underscore.
  by apply (inj pretty) in Ht.
Qed.

Lemma NoDup_fmap_transfer {A B C} (f : A → B) (g : A → C) (l : list A) :
  (∀ x y, x ∈ l → y ∈ l → f x = f y → g x = g y) →
  NoDup (g <$> l) → NoDup (f <$> l).
Proof.
  induction l as [| x l IH]; csimpl; intros Hfg Hnd; [constructor |].
  apply NoDup_cons in Hnd as [Hx Hnd]. apply NoDup_cons. split.
  - intros (y & Hxy & Hy)%list_elem_of_fmap. apply Hx.
    rewrite (Hfg x y); [by apply list_elem_of_fmap_2 | by left | by right |].
    done.
  - apply IH; [| done]. intros y z Hy Hz. apply Hfg; by right.
Qed.

(** X10: the votes of a session have pairwise distinct ids: no vote of the
    participant for the component overwrites an earlier one when the server
    stores the rows under their id. *)
Theorem session_vote_ids_distinct token pid comp ms answers h :
  token ≠ "" → pid ≠ "" → comp ≠ "" → NoDup ms → (2 ≤ length ms)%nat →
  Forall (λ r, ¬ row_matches pid comp r) h →
  let rows :=
    filter (row_matches pid comp) (session token pid comp ms answers h) in
  NoDup (vote_id <$> rows) ∧ Forall (λ r, is_Some (vote_id r)) rows.
Proof.
  intros Htoken Hpid Hcomp Hnd Hlen Hh. cbv zeta.
  destruct (session_from_start token pid comp ms answers h
              Htoken Hpid Hcomp Hnd Hlen Hh) as (_ & Hnum & Hids).
  rewrite Forall_forall in Hids. split.
  - apply (NoDup_fmap_transfer vote_id trial_id).
    + intros x y Hx Hy Hxy.
      destruct (Hids x Hx) as (t & Htx & Hvx).
      destruct (Hids y Hy) as (t' & Hty & Hvy).
      rewrite Hvx, Hvy in Hxy. injection Hxy as Hxy.
      apply makeVoteId_trial_inj in Hxy. congruence.
    + rewrite Hnum. apply NoDup_fmap_2; [| apply NoDup_seq].
      intros i j [= Hij]. lia.
  - apply Forall_forall. intros r Hr.
    destruct (Hids r Hr) as (t & _ & ->). by eexists.
Qed.

Lemma session_vote_ids_distinct_witness :
  NoDup (vote_id <$>
           filter (row_matches "P1" "cautions")
             (session "tok" "P1" "cautions" ["A"; "B"; "C"; "D"]
                [(PrefRight, ""); (PrefTie, "close call")] [])) ∧
  Forall (λ r, is_Some (vote_id r))
    (filter (row_matches "P1" "cautions")
       (session "tok" "P1" "cautions" ["A"; "B"; "C"; "D"]
          [(PrefRight, ""); (PrefTie, "close call")] [])).
Proof.
  apply (session_vote_ids_distinct "tok" "P1" "cautions"
           ["A"; "B"; "C"; "D"] [(PrefRight, ""); (PrefTie, "close call")] []).
  - discriminate.
  - discriminate.
  - discriminate.
  - apply (bool_decide_unpack _). vm_compute. exact I.
  - simpl. lia.
  - constructor.
Defined.

(** * Method documents and eligibility *)

(** Induction on a document, with the hypothesis for every element of an
    array and every value of an object. *)
Lemma Json_nested_ind (P : Json → Prop) :
  P JNull → (∀ b, P (JBool b)) → (∀ n, P (JNum n)) → (∀ s, P (JStr s)) →
  (∀ items, Forall P items → P (JArr items)) →
  (∀ fields, Forall (λ kv, P kv.2) fields → P (JObj fields)) →
  ∀ v, P v.
Proof.
  intros Hnull Hbool Hnum Hstr Harr Hobj. fix IH 1. intros [| b | n | s | items | fields].
  - exact Hnull.
  - apply Hbool.
  - apply Hnum.
  - apply Hstr.
  - apply Harr. induction items as [| v items IHitems]; constructor.
    + apply IH.
    + exact IHitems.
  - apply Hobj. induction fields as [| [k v] fields IHfields]; constructor.
    + apply IH.
    + exact IHfields.
Qed.

Lemma forallb_false_elem {A} (f : A → bool) (l : list A) :
  forallb f l = false ↔ ∃ x, x ∈ l ∧ f x = false.
Proof.
  induction l as [| y l IH]; simpl.
  - split; [done | intros (x & Hx & _)]. by apply elem_of_nil in Hx.
  - rewrite andb_false_iff, IH. split.
    + intros [Hy | (x & Hx & Hfx)]; [exists y | exists x];
        (split; [| done]); [by left | by right].
    + intros (x & Hx & Hfx). apply elem_of_cons in Hx as [-> | Hx]; eauto.
Qed.

Lemma isEmptyValue_has_content_iff v :
  isEmptyValue v = false ↔ has_content v.
Proof.
  induction v as [| b | n | s | items IH | fields IH] using Json_nested_ind.
  - split; [done | inversion 1].
  - split; [constructor | done].
  - split; [constructor | done].
  - simpl. rewrite bool_decide_eq_false. split.
    + by constructor.
    + by inversion 1.
  - simpl. rewrite Forall_forall in IH. split.
    + case_bool_decide; [done |].
      intros (v & Hv & Hfalse)%forallb_false_elem.
      apply (has_content_arr items v); [done |]. by apply IH.
    + inversion 1 as [| | | items' v Hv Hc |]; subst.
      rewrite bool_decide_eq_false_2.
      * apply forallb_false_elem. exists v. split; [done |]. by apply IH.
      * destruct items; [by apply elem_of_nil in Hv | done].
  - simpl. rewrite Forall_forall in IH. split.
    + case_bool_decide; [done |].
      intros ([k v] & Hv & Hfalse)%forallb_false_elem.
      apply (has_content_obj fields k v); [done |]. by apply (IH (k, v)).
    + inversion 1 as [| | | | fields' k v Hv Hc]; subst.
      rewrite bool_decide_eq_false_2.
      * apply forallb_false_elem. exists (k, v). split; [done |].
        by apply (IH (k, v)).
      * destruct fields; [by apply elem_of_nil in Hv | done].
Qed.

(** X11: [isEmptyValue] rejects a document exactly when some leaf of it holds
    content: a boolean, a number, or a string with a character that is not
    white space, at any depth of arrays and objects.  So null, blank
    strings, empty arrays and objects, and any nesting of those, are
    empty. *)
Theorem isEmptyValue_has_content v :
  isEmptyValue v = false ↔ has_content v.
Proof. apply isEmptyValue_has_content_iff. Qed.

Example isEmptyValue_items : isEmptyValue (JObj [("items", JArr [])]) = true.
Proof. reflexivity. Qed.

Example isEmptyValue_blank : isEmptyValue (JStr "   ") = true.
Proof. reflexivity. Qed.

Example isEmptyValue_zero : isEmptyValue (JArr [JNull; JNum 0]) = false.
Proof. reflexivity. Qed.

(** ** Matching a component name to a key *)

Lemma key_score_le target targetS k : (key_score target targetS k ≤ 100)%nat.
Proof. unfold key_score. cbv zeta. repeat case_match; lia. Qed.

Lemma key_score_exact target targetS k :
  key_score target targetS k = 100%nat ↔ normKey k = target.
Proof.
  unfold key_score. cbv zeta. case_bool_decide; [done |].
  repeat case_match; split; (done || lia).
Qed.

(** The loop of [bestMatchingKey]: it ends without a candidate when every
    key scores 0, and otherwise with the first key of greatest score. *)
Lemma best_fold target targetS (keys : list string) :
  let score := key_score target targetS in
  match fold_left (best_step target targetS) keys None with
  | None => Forall (λ k, score k = 0%nat) keys
  | Some (k, sc) =>
      sc = score k ∧ (0 < sc)%nat ∧
      ∃ l1 l2, keys = l1 ++ k :: l2 ∧
               Forall (λ k', score k' < score k)%nat l1 ∧
               Forall (λ k', score k' ≤ score k)%nat l2
  end.
Proof.
  cbv zeta. induction keys as [| x keys IH] using rev_ind; [by simpl |].
  rewrite fold_left_app. simpl. unfold best_step at 1.
  destruct (fold_left (best_step target targetS) keys None)
    as [[k sc] |] eqn:Hfold; simpl.
  - destruct IH as (-> & Hpos & l1 & l2 & -> & H1 & H2).
    destruct (Nat.ltb_spec 0 (key_score target targetS x)) as [Hx | Hx];
      simpl;
      [destruct (Nat.ltb_spec (key_score target targetS k)
                   (key_score target targetS x)) as [Hlt | Hge] |].
    + split; [done |]. split; [done |].
      exists (l1 ++ k :: l2), []. split; [done |]. split; [| constructor].
      apply Forall_app. split.
      * eapply Forall_impl; [exact H1 |]. simpl. lia.
      * constructor; [done |]. eapply Forall_impl; [exact H2 |]. simpl. lia.
    + split; [done |]. split; [done |].
      exists l1, (l2 ++ [x]). split; [by rewrite <- app_assoc |].
      split; [done |]. apply Forall_app. split; [done |].
      by constructor.
    + split; [done |]. split; [done |].
      exists l1, (l2 ++ [x]). split; [by rewrite <- app_assoc |].
      split; [done |]. apply Forall_app. split; [done |].
      constructor; [lia | constructor].
  - destruct (Nat.ltb_spec 0 (key_score target targetS x)) as [Hx | Hx]; simpl.
    + split; [done |]. split; [done |].
      exists keys, []. split; [done |]. split; [| constructor].
      eapply Forall_impl; [exact IH |]. simpl. lia.
    + apply Forall_app. split; [done |]. constructor; [lia | constructor].
Qed.

Lemma bestMatchingKey_Some_first obj desired k :
  bestMatchingKey obj desired = Some k →
  let score :=
    key_score (normKey desired) (stripPlural (normKey desired)) in
  (0 < score k)%nat ∧
  ∃ l1 l2,
    (object_entries obj).*1 = l1 ++ k :: l2 ∧
    Forall (λ k', score k' < score k)%nat l1 ∧
    Forall (λ k', score k' ≤ score k)%nat l2.
Proof.
  unfold bestMatchingKey. destruct (is_object obj); simpl; [| done].
  pose proof (best_fold (normKey desired) (stripPlural (normKey desired))
                (object_entries obj).*1) as Hfold. cbv zeta in Hfold.
  destruct (fold_left _ _ None) as [[k' sc] |]; simpl; [| done].
  intros [= ->]. destruct Hfold as (-> & Hpos & Hrest). done.
Qed.

(** X12: [bestMatchingKey] returns the first key of greatest score: the key
    it returns is a key of the object (for an array, an index), its score
    is positive, every earlier key scores strictly less and every later key
    scores at most as much. *)
Theorem bestMatchingKey_first_best obj desired k :
  bestMatchingKey obj desired = Some k →
  let score :=
    key_score (normKey desired) (stripPlural (normKey desired)) in
  (0 < score k)%nat ∧
  ∃ l1 l2,
    (object_entries obj).*1 = l1 ++ k :: l2 ∧
    Forall (λ k', score k' < score k)%nat l1 ∧
    Forall (λ k', score k' ≤ score k)%nat l2.
Proof. apply bestMatchingKey_Some_first. Qed.

Lemma bestMatchingKey_first_best_witness :
  (0 < key_score (normKey "action_space")
         (stripPlural (normKey "action_space")) "Action Space")%nat ∧
  ∃ l1 l2,
    (object_entries
       (JObj [("actions", JNull); ("Action Space", JArr []);
              ("action_spaces", JNull)])).*1
    = l1 ++ "Action Space" :: l2 ∧
    Forall (λ k', key_score (normKey "action_space")
                    (stripPlural (normKey "action_space")) k'
                  < key_score (normKey "action_space")
                      (stripPlural (normKey "action_space")) "Action Space")%nat
      l1 ∧
    Forall (λ k', key_score (normKey "action_space")
                    (stripPlural (normKey "action_space")) k'
                  ≤ key_score (normKey "action_space")
                      (stripPlural (normKey "action_space")) "Action Space")%nat
      l2.
Proof.
  apply (bestMatchingKey_first_best
           (JObj [("actions", JNull); ("Action Space", JArr []);
                  ("action_spaces", JNull)]) "action_space").
  vm_compute. reflexivity.
Defined.

Lemma bestMatchingKey_None_iff obj desired :
  bestMatchingKey obj desired = None ↔
  is_object obj = false ∨
  Forall (λ k, key_score (normKey desired) (stripPlural (normKey desired)) k
               = 0%nat) (object_entries obj).*1.
Proof.
  unfold bestMatchingKey. destruct (is_object obj); simpl; [| by split; auto].
  pose proof (best_fold (normKey desired) (stripPlural (normKey desired))
                (object_entries obj).*1) as Hfold. cbv zeta in Hfold.
  destruct (fold_left _ _ None) as [[k sc] |]; simpl.
  - split; [done |]. intros [? | Hall]; [done |]. exfalso.
    destruct Hfold as (-> & Hpos & l1 & l2 & Hkeys & _).
    rewrite Hkeys in Hall. apply Forall_app in Hall as [_ Hall].
    apply Forall_cons in Hall as [Hk _]. lia.
  - split; auto.
Qed.

(** X13: [bestMatchingKey] returns null exactly for a value that is not an
    object or an array (null, a boolean, a number, a string) and for an
    object none of whose keys matches the name, not even loosely. *)
Theorem bestMatchingKey_None obj desired :
  bestMatchingKey obj desired = None ↔
  is_object obj = false ∨
  Forall (λ k, key_score (normKey desired) (stripPlural (normKey desired)) k
               = 0%nat) (object_entries obj).*1.
Proof. apply bestMatchingKey_None_iff. Qed.

(** X14: an exact match wins.  When some key of the object equals the
    wanted name up to case and to characters other than letters and digits,
    [bestMatchingKey] returns the first such key, whatever looser matches
    come before it. *)
Theorem bestMatchingKey_exact obj desired k0 :
  is_object obj = true →
  k0 ∈ (object_entries obj).*1 → normKey k0 = normKey desired →
  ∃ k l1 l2,
    bestMatchingKey obj desired = Some k ∧
    normKey k = normKey desired ∧
    (object_entries obj).*1 = l1 ++ k :: l2 ∧
    Forall (λ k', normKey k' ≠ normKey desired) l1.
Proof.
  intros Hobj Hk0 Hexact.
  destruct (bestMatchingKey obj desired) as [k |] eqn:Hbest.
  - destruct (bestMatchingKey_Some_first obj desired k Hbest)
      as (Hpos & l1 & l2 & Hkeys & H1 & H2). cbv zeta in *.
    set (score := key_score (normKey desired) (stripPlural (normKey desired)))
      in *.
    assert (score k0 = 100%nat) as H100
      by (by apply (key_score_exact _ (stripPlural (normKey desired)))).
    assert (score k = 100%nat) as Hk.
    { pose proof (key_score_le (normKey desired)
                    (stripPlural (normKey desired)) k) as Hle. fold score in Hle.
      rewrite Hkeys in Hk0.
      apply elem_of_app in Hk0 as [Hin | Hin].
      - rewrite Forall_forall in H1. specialize (H1 k0 Hin). lia.
      - apply elem_of_cons in Hin as [-> | Hin]; [done |].
        rewrite Forall_forall in H2. specialize (H2 k0 Hin). lia. }
    exists k, l1, l2. split; [done |].
    split; [by apply (key_score_exact _ (stripPlural (normKey desired))) |].
    split; [done |]. eapply Forall_impl; [exact H1 |].
    intros k' Hlt Heq. cbv beta in Hlt.
    apply (key_score_exact _ (stripPlural (normKey desired))) in Heq.
    change (score k' = 100%nat) in Heq. lia.
  - exfalso. apply bestMatchingKey_None_iff in Hbest as [Hno | Hall]; [congruence |].
    rewrite Forall_forall in Hall. specialize (Hall k0 Hk0). cbv beta in Hall.
    apply (key_score_exact _ (stripPlural (normKey desired))) in Hexact. lia.
Qed.

Lemma bestMatchingKey_exact_witness :
  ∃ k l1 l2,
    bestMatchingKey
      (JObj [("user_profiles_v2", JNull); ("User Profile", JStr "x")])
      "user_profile" = Some k ∧
    normKey k = normKey "user_profile" ∧
    (object_entries
       (JObj [("user_profiles_v2", JNull); ("User Profile", JStr "x")])).*1
    = l1 ++ k :: l2 ∧
    Forall (λ k', normKey k' ≠ normKey "user_profile") l1.
Proof.
  apply (bestMatchingKey_exact _ _ "User Profile").
  - reflexivity.
  - apply elem_of_cons. right. apply elem_of_cons. left. reflexivity.
  - reflexivity.
Defined.

(** ** Eligible methods *)

(** X15: the value that [getComponentValue] returns is null or the value
    that the document stores under the key chosen by [bestMatchingKey]; it
    is null in particular when the document is not an object or an array. *)
Theorem getComponentValue_stored methodData comp v :
  getComponentValue methodData comp = v → v ≠ JNull →
  is_object methodData = true ∧
  ∃ k, bestMatchingKey methodData comp = Some k ∧
       (k, v) ∈ object_entries methodData.
Proof.
  unfold getComponentValue. intros Hv Hnn.
  destruct (bestMatchingKey methodData comp) as [k |] eqn:Hbest;
    [| congruence].
  split.
  { unfold bestMatchingKey in Hbest. by destruct (is_object methodData). }
  exists k. split; [done |].
  case_bool_decide; [congruence |].
  unfold get_property in Hv.
  destruct (list_find _ _) as [[i [k' v']] |] eqn:Hfind; simpl in Hv;
    [| congruence].
  apply list_find_Some in Hfind as (Hi & Hk & _). simpl in Hk. subst.
  by eapply list_elem_of_lookup_2.
Qed.

Lemma getComponentValue_stored_witness :
  is_object (JObj [("Cautions", JArr [JStr "avoid advice"])]) = true ∧
  ∃ k,
    bestMatchingKey (JObj [("Cautions", JArr [JStr "avoid advice"])])
      "cautions" = Some k ∧
    (k, JArr [JStr "avoid advice"])
      ∈ object_entries (JObj [("Cautions", JArr [JStr "avoid advice"])]).
Proof.
  apply (getComponentValue_stored _ "cautions").
  - reflexivity.
  - discriminate.
Defined.

Lemma getComponentValue_falsy md comp :
  truthy md = false → getComponentValue md comp = JNull.
Proof.
  intros Hf. unfold getComponentValue, bestMatchingKey.
  by destruct md.
Qed.

Lemma method_valid_spec methods comp id :
  method_valid methods comp id = true ↔
  ∃ md, methods !! id = Some md ∧ has_content (getComponentValue md comp).
Proof.
  unfold method_valid. destruct (methods !! id) as [md |].
  - destruct (truthy md) eqn:Ht; simpl.
    + rewrite negb_true_iff, isEmptyValue_has_content_iff. split.
      * intros Hc. by exists md.
      * by intros (md' & [= <-] & Hc).
    + split; [done |]. intros (md' & [= <-] & Hc).
      rewrite getComponentValue_falsy in Hc by done. inversion Hc.
  - split; [done |]. by intros (md & ? & _).
Qed.

(** X16: the eligible method ids.  Before the manifest is loaded there is
    none.  Afterwards they are the manifest ids, in manifest order, of the
    methods whose loaded document holds content for the component; distinct
    manifest ids give distinct eligible ids. *)
Theorem validMethodIds_spec ms methods comp :
  validMethodIds None methods comp = [] ∧
  validMethodIds (Some ms) methods comp `sublist_of` (method_id <$> ms) ∧
  (NoDup (method_id <$> ms) → NoDup (validMethodIds (Some ms) methods comp)) ∧
  (∀ id,
     id ∈ validMethodIds (Some ms) methods comp ↔
     id ∈ method_id <$> ms ∧
     ∃ md, methods !! id = Some md ∧
           has_content (getComponentValue md comp)).
Proof.
  split; [done |]. unfold validMethodIds.
  split; [apply sublist_filter |]. split; [apply NoDup_filter |].
  intros id. rewrite list_elem_of_filter, method_valid_spec. tauto.
Qed.

Lemma validMethodIds_spec_witness :
  NoDup
    (validMethodIds
       (Some [mkMethod "A" "Baseline" "a.json"; mkMethod "B" "Ours" "b.json";
              mkMethod "C" "Oracle" "c.json"])
       (<["A" := JObj [("cautions", JArr [JStr "never diagnose"])]]>
          (<["B" := JObj [("cautions", JArr [])]]> ∅))
       "cautions").
Proof.
  destruct (validMethodIds_spec
              [mkMethod "A" "Baseline" "a.json"; mkMethod "B" "Ours" "b.json";
               mkMethod "C" "Oracle" "c.json"]
              (<["A" := JObj [("cautions", JArr [JStr "never diagnose"])]]>
                 (<["B" := JObj [("cautions", JArr [])]]> ∅))
              "cautions") as (_ & _ & Hnd & _).
  apply Hnd. apply (bool_decide_unpack _). vm_compute. exact I.
Defined.

Example validMethodIds_example :
  validMethodIds
    (Some [mkMethod "A" "Baseline" "a.json"; mkMethod "B" "Ours" "b.json";
           mkMethod "C" "Oracle" "c.json"])
    (<["A" := JObj [("cautions", JArr [JStr "never diagnose"])]]>
       (<["B" := JObj [("cautions", JArr [])]]> ∅))
    "cautions" = ["A"].
Proof. by vm_compute. Qed.

(** * Escaping text for display *)

Lemma app_assoc_string (a b c : string) : (a +:+ b) +:+ c = a +:+ (b +:+ c).
Proof. induction a as [| x a IH]; [done |]. by rewrite !app_String, IH. Qed.

Lemma replace_char_app c by_ a b :
  replace_char c by_ (a +:+ b) = replace_char c by_ a +:+ replace_char c by_ b.
Proof.
  induction a as [| x a IH]; [done |]. rewrite app_String. simpl.
  destruct (decide (x = c)); rewrite IH.
  - by rewrite app_assoc_string.
  - by rewrite app_String.
Qed.

Lemma escapeHtml_app a b : escapeHtml (a +:+ b) = escapeHtml a +:+ escapeHtml b.
Proof. unfold escapeHtml. by rewrite !replace_char_app. Qed.

Lemma escapeHtml_single c : escapeHtml (String c EmptyString) = escape_char c.
Proof.
  unfold escape_char.
  destruct (decide (c = "&"%char)) as [-> | Hamp]; [done |].
  destruct (decide (c = "<"%char)) as [-> | Hlt]; [done |].
  destruct (decide (c = ">"%char)) as [-> | Hgt]; [done |].
  destruct (decide (c = dquote)) as [-> | Hdq]; [done |].
  destruct (decide (c = squote)) as [-> | Hsq]; [done |].
  unfold escapeHtml. simpl.
  rewrite decide_False by done. simpl. rewrite decide_False by done. simpl.
  rewrite decide_False by done. simpl. rewrite decide_False by done. simpl.
  by rewrite decide_False by done.
Qed.

Lemma escapeHtml_chars s : escapeHtml s = escape_chars s.
Proof.
  induction s as [| c s IH]; [done |].
  change (String c s) with (String c EmptyString +:+ s).
  by rewrite escapeHtml_app, escapeHtml_single, IH.
Qed.

Lemma escape_char_no_markup c :
  string_forall (λ x, negb (is_markup_char x)) (escape_char c) = true.
Proof.
  unfold escape_char. repeat case_decide; try done.
  simpl. unfold is_markup_char.
  by rewrite !bool_decide_eq_false_2.
Qed.

(** X17: [escapeHtml] works character by character although it makes five
    passes: each of [&], [<], [>], the double quote and the apostrophe
    becomes its entity, every other character stays, and no entity written
    by one pass is escaped again by a later one.  So the result for a
    concatenation is the concatenation of the results. *)
Theorem escapeHtml_characterwise s1 s2 :
  escapeHtml s1 = escape_chars s1 ∧
  escapeHtml (s1 +:+ s2) = escapeHtml s1 +:+ escapeHtml s2.
Proof. split; [apply escapeHtml_chars | apply escapeHtml_app]. Qed.

(** X18: the result of [escapeHtml] holds no [<], no [>], no double quote
    and no apostrophe: inserted as HTML it cannot open or close a tag or an
    attribute value. *)
Theorem escapeHtml_no_markup s :
  string_forall (λ c, negb (is_markup_char c)) (escapeHtml s) = true.
Proof.
  rewrite escapeHtml_chars. induction s as [| c s IH]; [done |]. simpl.
  by rewrite string_forall_app, escape_char_no_markup, IH.
Qed.

Example escapeHtml_example :
  escapeHtml "<b>Tom & Jerry</b>" = "&lt;b&gt;Tom &amp; Jerry&lt;/b&gt;".
Proof. reflexivity. Qed.

Lemma escape_char_prefix_free c d x y :
  escape_char c +:+ x = escape_char d +:+ y → c = d ∧ x = y.
Proof.
  unfold escape_char.
  repeat case_decide; subst; rewrite ?app_String, ?app_empty;
    intros Heq; simplify_eq; done.
Qed.

(** X19: [escapeHtml] loses nothing: two texts with the same escaped form
    are the same text. *)
Theorem escapeHtml_injective a b : escapeHtml a = escapeHtml b → a = b.
Proof.
  rewrite !escapeHtml_chars. revert b.
  induction a as [| c a IH]; intros [| d b]; simpl; [done | | |].
  - unfold escape_char. repeat case_decide; rewrite ?app_String; done.
  - unfold escape_char. repeat case_decide; rewrite ?app_String; done.
  - intros Heq. apply escape_char_prefix_free in Heq as [-> Heq].
    f_equal. by apply IH.
Qed.

Lemma escapeHtml_injective_witness : "a<b" = "a<b".
Proof. apply escapeHtml_injective. reflexivity. Defined.

(** * The small markdown *)

Lemma find_close_inline s group :
  string_forall (λ c, negb (is_markup_char c)) s = true →
  find_close s = Some group → string_forall is_inline_char group = true.
Proof.
  revert group. induction s as [| c s IH]; intros group Hs;
    cbn [find_close]; [done |].
  cbn [string_forall] in Hs. apply andb_true_iff in Hs as [Hc Hs].
  destruct (String.prefix "**" (String c s)); [by intros [= <-] |].
  destruct (is_line_terminator c) eqn:Hlt; [done |].
  destruct (find_close s) as [g |]; cbn [fmap option_fmap option_map];
    [| done].
  intros [= <-]. cbn [string_forall]. unfold is_inline_char at 1.
  by rewrite Hc, Hlt, (IH g).
Qed.

Lemma match_bold_inline s group :
  string_forall (λ c, negb (is_markup_char c)) s = true →
  match_bold s = Some group →
  group ≠ EmptyString ∧ string_forall is_inline_char group = true.
Proof.
  intros Hs Hm. unfold match_bold in Hm.
  destruct s as [| c1 [| c2 [| c s]]]; try done.
  simpl in Hs. apply andb_true_iff in Hs as [_ Hs].
  apply andb_true_iff in Hs as [_ Hs]. apply andb_true_iff in Hs as [Hc Hs].
  destruct (bool_decide (c1 = "*"%char) && bool_decide (c2 = "*"%char));
    simpl in Hm; [| done].
  destruct (is_line_terminator c) eqn:Hlt; simpl in Hm; [done |].
  destruct (find_close s) as [g |] eqn:Hg; simpl in Hm; [| done].
  injection Hm as <-.
  split; [done |]. simpl. unfold is_inline_char at 1.
  by rewrite Hc, Hlt, (find_close_inline s g).
Qed.

Lemma replace_bold_mini_html skip s :
  string_forall (λ c, negb (is_markup_char c)) s = true →
  mini_html (replace_bold skip s).
Proof.
  revert skip. induction s as [| c s IH]; intros skip Hs; [constructor |].
  pose proof Hs as Hcs. simpl in Hcs. apply andb_true_iff in Hcs as [Hc Hs'].
  destruct skip as [| n]; [| by apply IH].
  cbn [replace_bold].
  destruct (match_bold (String c s)) as [group |] eqn:Hm.
  - destruct (match_bold_inline _ _ Hs Hm) as [Hne Hinl].
    apply mini_html_strong; [done .. |]. by apply IH.
  - constructor; [by apply negb_true_iff | by apply IH].
Qed.

Lemma replace_char_absent c by_ s :
  string_forall (λ x, negb (bool_decide (x = c))) s = true →
  replace_char c by_ s = s.
Proof.
  induction s as [| x s IH]; simpl; [done |].
  intros [Hx Hs]%andb_true_iff. apply negb_true_iff in Hx.
  apply bool_decide_eq_false in Hx. rewrite decide_False by done.
  by rewrite IH.
Qed.

Lemma inline_no_newline group :
  string_forall is_inline_char group = true →
  string_forall (λ x, negb (bool_decide (x = "010"%char))) group = true.
Proof.
  induction group as [| c g IH]; simpl; [done |].
  intros [Hc Hg]%andb_true_iff. rewrite (IH Hg), andb_true_r.
  apply negb_true_iff, bool_decide_eq_false. intros ->. done.
Qed.

Lemma replace_newline_mini_html s :
  mini_html s → mini_html (replace_char "010" "<br/>" s).
Proof.
  induction 1 as [| c s Hc _ IH | s _ IH | group s Hne Hinl _ IH].
  - constructor.
  - simpl. destruct (decide (c = "010"%char)).
    + by apply mini_html_br.
    + by constructor.
  - rewrite replace_char_app. by apply mini_html_br.
  - rewrite !replace_char_app.
    rewrite (replace_char_absent _ _ group) by (by apply inline_no_newline).
    by apply mini_html_strong.
Qed.

(** X20: whatever the text, [renderMiniMarkdown] produces HTML whose only
    markup is [<br/>] and closed [<strong>] elements around a non-empty piece
    of one line; every other character of the result is neither [<], [>], a
    double quote nor an apostrophe. *)
Theorem renderMiniMarkdown_mini_html md : mini_html (renderMiniMarkdown md).
Proof.
  unfold renderMiniMarkdown. cbv zeta.
  apply replace_newline_mini_html, replace_bold_mini_html.
  rewrite escapeHtml_chars. induction md as [| c md IH]; [done |]. simpl.
  by rewrite string_forall_app, escape_char_no_markup, IH.
Qed.

Example renderMiniMarkdown_example :
  renderMiniMarkdown "**Goal**: be <kind> to **all"
  = "<strong>Goal</strong>: be &lt;kind&gt; to **all".
Proof. reflexivity. Qed.

Example renderMiniMarkdown_stars :
  renderMiniMarkdown "x***y***z" = "x<strong>*y</strong>*z".
Proof. reflexivity. Qed.

(** * The worker *)

Lemma pretty_N_char_digit x :
  (x < 10)%N →
  is_digit (pretty_N_char x) = true ∧
  char_code (pretty_N_char x) - 48 = Z.of_N x.
Proof.
  intros Hx.
  assert (x = 0 ∨ x = 1 ∨ x = 2 ∨ x = 3 ∨ x = 4 ∨ x = 5 ∨ x = 6 ∨ x = 7
          ∨ x = 8 ∨ x = 9)%N as Hcases by lia.
  repeat (destruct Hcases as [-> | Hcases]; [done |]). by subst.
Qed.

(** The digits written for [x] in front of [s] are read back as [x]. *)
Lemma pretty_N_go_digits x :
  ∃ k : Z, 0 ≤ k ∧
    ∀ s acc,
      parse_digits acc (pretty_N_go x s)
      = parse_digits (acc * 10 ^ k + Z.of_N x) s ∧
      (string_forall is_digit s = true →
       string_forall is_digit (pretty_N_go x s) = true).
Proof.
  induction (N.lt_wf_0 x) as [x _ IH].
  assert (x = 0 ∨ 0 < x)%N as [-> | Hx] by lia.
  - exists 0. split; [done |]. intros s acc. rewrite pretty_N_go_0.
    split; [f_equal; lia | done].
  - destruct (IH (x `div` 10)%N) as (k & Hk & Hgo); [by apply N.div_lt |].
    exists (k + 1). split; [lia |]. intros s acc.
    rewrite pretty_N_go_step by done.
    destruct (Hgo (String (pretty_N_char (x `mod` 10)) s) acc)
      as [Hparse Hdigits].
    destruct (pretty_N_char_digit (x `mod` 10)%N) as [Hd Hv];
      [by apply N.mod_lt |].
    split.
    + rewrite Hparse. simpl. f_equal. rewrite Hv.
      rewrite Z.pow_add_r by lia.
      pose proof (N.div_mod x 10) as Hdm.
      assert (Z.of_N x = 10 * Z.of_N (x `div` 10) + Z.of_N (x `mod` 10))
        as -> by lia.
      lia.
    + intros Hs. apply Hdigits. simpl. by rewrite Hd, Hs.
Qed.

Lemma pretty_N_go_length x s :
  (String.length s ≤ String.length (pretty_N_go x s))%nat.
Proof.
  revert s. induction (N.lt_wf_0 x) as [x _ IH]; intros s.
  assert (x = 0 ∨ 0 < x)%N as [-> | Hx] by lia.
  - by rewrite pretty_N_go_0.
  - rewrite pretty_N_go_step by done.
    etrans; [| apply IH; by apply N.div_lt]. simpl. lia.
Qed.

Lemma number_to_string_digits n :
  0 ≤ n →
  string_forall is_digit (number_to_string n) = true ∧
  number_to_string n ≠ "" ∧
  parse_digits 0 (number_to_string n) = n.
Proof.
  intros Hn. unfold number_to_string, pretty, pretty_Z.
  destruct n as [| p | p]; [done | | lia].
  unfold pretty, pretty_positive, pretty, pretty_N.
  rewrite decide_False by done.
  destruct (pretty_N_go_digits (N.pos p)) as (k & Hk & Hgo).
  destruct (Hgo "" 0) as [Hparse Hdigits].
  split; [by apply Hdigits |]. split.
  - rewrite pretty_N_go_step by done. intros Hempty.
    pose proof (pretty_N_go_length (N.pos p `div` 10)
                  (String (pretty_N_char (N.pos p `mod` 10)) "")) as Hlen.
    rewrite Hempty in Hlen. simpl in Hlen. lia.
  - rewrite Hparse. simpl. lia.
Qed.

Lemma zeros_digits k : string_forall is_digit (zeros k) = true.
Proof. induction k as [| k IH]; [done |]. simpl. by rewrite IH. Qed.

Lemma parse_digits_zeros k ds :
  parse_digits 0 (zeros k +:+ ds) = parse_digits 0 ds.
Proof.
  induction k as [| k IH]; [done |]. cbn [zeros]. rewrite app_String.
  cbn [parse_digits]. exact IH.
Qed.

Lemma app_not_empty a b : b ≠ "" → a +:+ b ≠ "".
Proof. destruct a; [done |]. by rewrite app_String. Qed.

Lemma string_length_app a b :
  String.length (a +:+ b) = (String.length a + String.length b)%nat.
Proof. induction a as [| c a IH]; [done |]. rewrite app_String. simpl. lia. Qed.

Lemma zeros_length k : String.length (zeros k) = k.
Proof. induction k as [| k IH]; [done |]. simpl. by rewrite IH. Qed.

(** X21: participant ids round-trip.  For a number from 0 to 2^53 - 1
    (every row id that a number holds exactly) [formatParticipantId]
    writes [P] and at least five decimal digits, and [parseParticipantId]
    reads the number back; so distinct numbers get distinct ids. *)
Theorem participant_id_round_trip n :
  0 ≤ n < 2 ^ 53 →
  ∃ pid,
    formatParticipantId n = Some pid ∧
    parseParticipantId pid = Some (Ok n) ∧
    (6 ≤ String.length pid)%nat.
Proof.
  intros Hn.
  destruct (number_to_string_digits n) as (Hd & Hne & Hp); [lia |].
  assert (is_safe_integer n = true) as Hsafe.
  { unfold is_safe_integer. apply andb_true_intro.
    split; apply Z.ltb_lt; lia. }
  eexists. split; [| split].
  - unfold formatParticipantId. by rewrite Hsafe.
  - unfold parseParticipantId, padStart_zero.
    rewrite bool_decide_eq_true_2 by done.
    rewrite (bool_decide_eq_false_2 (_ = "")) by (by apply app_not_empty).
    rewrite string_forall_app, zeros_digits, Hd. simpl.
    by rewrite parse_digits_zeros, Hp, Hsafe.
  - unfold padStart_zero. simpl.
    rewrite string_length_app, zeros_length. lia.
Qed.

Lemma participant_id_round_trip_witness :
  ∃ pid,
    formatParticipantId 42 = Some pid ∧
    parseParticipantId pid = Some (Ok 42) ∧
    (6 ≤ String.length pid)%nat.
Proof. apply participant_id_round_trip. lia. Defined.

Example formatParticipantId_example : formatParticipantId 1 = Some "P00001".
Proof. reflexivity. Qed.

Example formatParticipantId_long :
  formatParticipantId 1234567 = Some "P1234567".
Proof. reflexivity. Qed.

Example formatParticipantId_unsafe : formatParticipantId (10 ^ 21) = None.
Proof. reflexivity. Qed.

Example parseParticipantId_reject :
  parseParticipantId "P12a" = Some (Err "Invalid participant_id").
Proof. reflexivity. Qed.

Example parseParticipantId_unsafe :
  parseParticipantId "P9007199254740993" = None.
Proof. reflexivity. Qed.

Lemma string_take_length n s : (String.length (string_take n s) ≤ n)%nat.
Proof.
  revert s. induction n as [| n IH]; intros [| c s]; simpl; try lia.
  specialize (IH s). lia.
Qed.

Lemma string_take_prefix n s : String.prefix (string_take n s) s = true.
Proof.
  revert s. induction n as [| n IH]; intros [| c s]; simpl; try done.
  destruct (ascii_dec c c); [apply IH | done].
Qed.

Lemma string_prefix_refl s : String.prefix s s = true.
Proof.
  induction s as [| c s IH]; [done |]. simpl.
  by destruct (ascii_dec c c).
Qed.

(** X22: [sanitizeText] returns the trimmed text cut to [maxLen]
    characters: the result is never longer than [maxLen], it is a prefix of
    the trimmed text, and it is the whole trimmed text when that fits. *)
Theorem sanitizeText_bounded v maxLen :
  (String.length (sanitizeText v maxLen) ≤ maxLen)%nat ∧
  String.prefix (sanitizeText v maxLen) (trim (default "" v)) = true ∧
  ((String.length (trim (default "" v)) ≤ maxLen)%nat →
   sanitizeText v maxLen = trim (default "" v)).
Proof.
  unfold sanitizeText. cbv zeta.
  destruct (Nat.ltb_spec maxLen (String.length (trim (default "" v))))
    as [Hlong | Hshort].
  - split; [apply string_take_length |].
    split; [apply string_take_prefix | lia].
  - split; [done |]. split; [apply string_prefix_refl | done].
Qed.

Lemma sanitizeText_bounded_witness :
  sanitizeText (Some "  too long for the field ") 40 = "too long for the field".
Proof.
  destruct (sanitizeText_bounded (Some "  too long for the field ") 40)
    as (_ & _ & Hfits).
  apply Hfits. vm_compute. lia.
Defined.

(** X24: what the vote route stores.  An accepted vote has a recognised
    answer; with a non-blank [resolved_preferred] the stored side is its
    normal form; without one the answer is not a tie and the stored side is
    the answer itself.  So a tie is never stored without an explicit
    resolution. *)
Theorem vote_outcome_sound preferred resolved p s :
  vote_outcome preferred resolved = Ok (p, s) →
  normalizePreferred preferred = Ok p ∧
  match resolved with
  | Some r =>
      if bool_decide (trim r = "")
      then p ≠ PrefTie ∧ preferred_string p = side_string s
      else normalizeResolvedPreferred r = Ok s
  | None => p ≠ PrefTie ∧ preferred_string p = side_string s
  end.
Proof.
  unfold vote_outcome. case_bool_decide; [done |].
  destruct (normalizePreferred preferred) as [p' | e]; [| done].
  destruct resolved as [r |].
  - case_bool_decide; simpl.
    + destruct p'; intros [= <- <-]; done.
    + destruct (normalizeResolvedPreferred r) as [s' | e]; [| done].
      by intros [= <- <-].
  - destruct p'; intros [= <- <-]; done.
Qed.

Lemma vote_outcome_sound_witness :
  normalizePreferred " TIE " = Ok PrefTie ∧
  normalizeResolvedPreferred "Top" = Ok Left.
Proof.
  apply (vote_outcome_sound " TIE " (Some "Top") PrefTie Left).
  vm_compute. reflexivity.
Defined.

Example vote_outcome_missing_resolution :
  vote_outcome "tie" None = Err "Missing resolved_preferred for tie".
Proof. reflexivity. Qed.

(** * Merging and resuming *)

Lemma merge_local_fresh ls m0 :
  NoDup (m0.*1 ++ (historyKey <$> ls)) →
  merge_local ls m0 = m0 ++ ((λ r, (historyKey r, r)) <$> ls).
Proof.
  unfold merge_local. revert m0.
  induction ls as [| r ls IH]; intros m0 Hnd; csimpl.
  - by rewrite app_nil_r.
  - csimpl in Hnd.
    assert (historyKey r ∉ m0.*1) as Hfresh.
    { apply NoDup_app in Hnd as (_ & Hdisj & _).
      intros Hin. apply (Hdisj _ Hin). by left. }
    assert (map_has m0 (historyKey r) = false) as ->.
    { destruct (map_has m0 (historyKey r)) eqn:Hhas; [| done].
      by apply map_has_true in Hhas. }
    rewrite map_set_fresh by done. rewrite IH.
    + by rewrite <- app_assoc.
    + rewrite fmap_app. csimpl. by rewrite <- app_assoc.
Qed.

Lemma mergeHistory_distinct_keys localRows remoteRows :
  NoDup (historyKey <$> (remoteRows ++ localRows)) →
  mergeHistory localRows remoteRows ≡ₚ remoteRows ++ localRows.
Proof.
  intros Hnd. unfold mergeHistory, merge_remote, map_values. cbv zeta.
  rewrite array_sort_Permutation. rewrite fmap_app in Hnd.
  rewrite merge_remote_fresh
    by (simpl; by apply NoDup_app in Hnd as (? & _ & _)).
  simpl. rewrite merge_local_fresh.
  - rewrite fmap_app, <- !list_fmap_compose.
    change (snd ∘ (λ r, (historyKey r, r))) with (@id Row).
    by rewrite !list_fmap_id.
  - rewrite <- list_fmap_compose.
    by change (fst ∘ (λ r, (historyKey r, r))) with historyKey.
Qed.

(** X25: when no key occurs twice among the local and the remote rows, the
    merge loses and repeats nothing: the merged log is a rearrangement of
    the remote rows followed by the local rows. *)
Theorem mergeHistory_union localRows remoteRows :
  NoDup (historyKey <$> (remoteRows ++ localRows)) →
  mergeHistory localRows remoteRows ≡ₚ remoteRows ++ localRows ∧
  length (mergeHistory localRows remoteRows)
  = (length remoteRows + length localRows)%nat.
Proof.
  intros Hnd.
  pose proof (mergeHistory_distinct_keys localRows remoteRows Hnd) as Hperm.
  split; [done |]. by rewrite Hperm, length_app.
Qed.

Lemma mergeHistory_union_witness :
  mergeHistory
    [mkRow None (Some "P1") (Some "cautions") (Some 2) "C" "A"
       (Some "left") (Some "left") None]
    [mkRow None (Some "P1") (Some "cautions") (Some 1) "B" "C"
       (Some "right") (Some "right") None]
  ≡ₚ [mkRow None (Some "P1") (Some "cautions") (Some 1) "B" "C"
        (Some "right") (Some "right") None] ++
     [mkRow None (Some "P1") (Some "cautions") (Some 2) "C" "A"
        (Some "left") (Some "left") None] ∧
  length
    (mergeHistory
       [mkRow None (Some "P1") (Some "cautions") (Some 2) "C" "A"
          (Some "left") (Some "left") None]
       [mkRow None (Some "P1") (Some "cautions") (Some 1) "B" "C"
          (Some "right") (Some "right") None])
  = (1 + 1)%nat.
Proof.
  apply mergeHistory_union.
  apply (bool_decide_unpack _). vm_compute. exact I.
Defined.

(** X26: resuming on another device.  When no key occurs twice among the
    local and the remote rows and the rows of the participant and the
    component have pairwise distinct trial ids, the scheduler gives the
    same pair for the merged history as for the remote rows followed by the
    local ones: sorting the log by component and trial does not disturb the
    tournament. *)
Theorem nextPair_after_merge pid comp ms localRows remoteRows :
  NoDup (historyKey <$> (remoteRows ++ localRows)) →
  NoDup ((λ r, default 0 (trial_id r)) <$>
           filter (row_matches pid comp) (remoteRows ++ localRows)) →
  nextPair pid comp ms (mergeHistory localRows remoteRows)
  = nextPair pid comp ms (remoteRows ++ localRows).
Proof.
  intros Hkeys Htrials. symmetry. apply nextPair_same_rows; [| done].
  by rewrite (mergeHistory_distinct_keys localRows remoteRows Hkeys).
Qed.

Lemma nextPair_after_merge_witness :
  nextPair "P1" "cautions" ["A"; "B"; "C"; "D"]
    (mergeHistory
       [mkRow None (Some "P1") (Some "cautions") (Some 2) "C" "A"
          (Some "left") (Some "left") None]
       [mkRow None (Some "P1") (Some "user_profile") (Some 1) "A" "D"
          (Some "left") (Some "left") None;
        mkRow None (Some "P1") (Some "cautions") (Some 1) "B" "C"
          (Some "right") (Some "right") None])
  = nextPair "P1" "cautions" ["A"; "B"; "C"; "D"]
      ([mkRow None (Some "P1") (Some "user_profile") (Some 1) "A" "D"
          (Some "left") (Some "left") None;
        mkRow None (Some "P1") (Some "cautions") (Some 1) "B" "C"
          (Some "right") (Some "right") None] ++
       [mkRow None (Some "P1") (Some "cautions") (Some 2) "C" "A"
          (Some "left") (Some "left") None]).
Proof.
  apply nextPair_after_merge.
  - apply (bool_decide_unpack _). vm_compute. exact I.
  - apply (bool_decide_unpack _). vm_compute. exact I.
Defined.

(** * Trimming and lower-casing *)

Lemma id_char_not_space c : is_id_char c = true → is_space c = false.
Proof. destruct c as [[] [] [] [] [] [] [] []]; by vm_compute. Qed.

Lemma lower_char_idem c : lower_char (lower_char c) = lower_char c.
Proof. destruct c as [[] [] [] [] [] [] [] []]; by vm_compute. Qed.

Lemma is_space_lower_char c : is_space (lower_char c) = is_space c.
Proof. destruct c as [[] [] [] [] [] [] [] []]; by vm_compute. Qed.

(** A string that is empty or starts with a character other than white
    space is left alone by [trimStart]. *)
Lemma trimStart_fix s :
  match s with EmptyString => True | String c _ => is_space c = false end →
  trimStart s = s.
Proof. destruct s as [| c s]; [done |]. simpl. by intros ->. Qed.

Lemma trimStart_starts s :
  match trimStart s with
  | EmptyString => True
  | String c _ => is_space c = false
  end.
Proof.
  induction s as [| c s IH]; [done |]. simpl.
  destruct (is_space c) eqn:Hc; [done |]. done.
Qed.

Lemma trimEnd_cons c s :
  trimEnd (String c s)
  = match trimEnd s with
    | EmptyString => if is_space c then EmptyString else String c EmptyString
    | t => String c t
    end.
Proof. reflexivity. Qed.

Lemma trimEnd_starts s :
  match s with EmptyString => True | String c _ => is_space c = false end →
  match trimEnd s with
  | EmptyString => True
  | String c _ => is_space c = false
  end.
Proof.
  destruct s as [| c s]; [done |]. rewrite trimEnd_cons. intros Hc.
  destruct (trimEnd s); [by rewrite Hc | done].
Qed.

Lemma trimEnd_idem s : trimEnd (trimEnd s) = trimEnd s.
Proof.
  induction s as [| c s IH]; [done |]. rewrite trimEnd_cons.
  destruct (trimEnd s) as [| d t] eqn:Ht.
  - destruct (is_space c) eqn:Hc; [done |]. rewrite trimEnd_cons.
    cbn [trimEnd]. by rewrite Hc.
  - by rewrite trimEnd_cons, IH.
Qed.

Lemma trim_idem s : trim (trim s) = trim s.
Proof.
  unfold trim.
  rewrite (trimStart_fix (trimEnd (trimStart s)))
    by apply trimEnd_starts, trimStart_starts.
  apply trimEnd_idem.
Qed.

Lemma trimStart_toLowerCase s :
  trimStart (toLowerCase s) = toLowerCase (trimStart s).
Proof.
  induction s as [| c s IH]; [done |]. simpl.
  rewrite is_space_lower_char. by destruct (is_space c).
Qed.

Lemma trimEnd_toLowerCase s :
  trimEnd (toLowerCase s) = toLowerCase (trimEnd s).
Proof.
  induction s as [| c s IH]; [done |].
  cbn [toLowerCase]. rewrite !trimEnd_cons, IH.
  destruct (trimEnd s) as [| d t]; cbn [toLowerCase]; [| done].
  rewrite is_space_lower_char. by destruct (is_space c).
Qed.

Lemma trim_toLowerCase s : trim (toLowerCase s) = toLowerCase (trim s).
Proof. unfold trim. by rewrite trimStart_toLowerCase, trimEnd_toLowerCase. Qed.

Lemma toLowerCase_idem s : toLowerCase (toLowerCase s) = toLowerCase s.
Proof.
  induction s as [| c s IH]; [done |]. simpl. by rewrite lower_char_idem, IH.
Qed.

Lemma trimEnd_no_space s :
  string_forall (λ c, negb (is_space c)) s = true → trimEnd s = s.
Proof.
  induction s as [| c s IH]; [done |]. cbn [string_forall].
  intros [Hc Hs]%andb_true_iff. apply negb_true_iff in Hc.
  rewrite trimEnd_cons, (IH Hs). destruct s; [by rewrite Hc | done].
Qed.

Lemma trim_no_space s :
  string_forall (λ c, negb (is_space c)) s = true → trim s = s.
Proof.
  intros Hs. unfold trim. rewrite trimStart_fix; [by apply trimEnd_no_space |].
  destruct s as [| c s]; [done |]. simpl in Hs.
  apply andb_true_iff in Hs as [Hc _]. by apply negb_true_iff.
Qed.

Lemma replace_spaces_no_space b s :
  string_forall (λ c, negb (is_space c)) s = true → replace_spaces b s = s.
Proof.
  revert b. induction s as [| c s IH]; intros b; [done |]. simpl.
  intros [Hc Hs]%andb_true_iff. apply negb_true_iff in Hc.
  by rewrite Hc, IH.
Qed.

Lemma strip_non_id_fix s :
  string_forall is_id_char s = true → strip_non_id s = s.
Proof.
  induction s as [| c s IH]; [done |]. simpl.
  intros [Hc Hs]%andb_true_iff. by rewrite Hc, IH.
Qed.

Lemma id_chars_no_space s :
  string_forall is_id_char s = true →
  string_forall (λ c, negb (is_space c)) s = true.
Proof.
  induction s as [| c s IH]; [done |]. simpl.
  intros [Hc Hs]%andb_true_iff.
  by rewrite (id_char_not_space c Hc), IH.
Qed.

(** X27: sanitizing a component name twice changes nothing more, so the
    vote id built from a sanitized name is the vote id built from the name
    itself. *)
Theorem sanitize_component_idempotent pid c t :
  sanitize_component (sanitize_component c) = sanitize_component c ∧
  makeVoteId pid (sanitize_component c) t = makeVoteId pid c t.
Proof.
  assert (sanitize_component (sanitize_component c) = sanitize_component c)
    as Hidem.
  { pose proof (strip_non_id_chars (replace_spaces false (trim c))) as Hid.
    fold (sanitize_component c) in Hid.
    pose proof (id_chars_no_space _ Hid) as Hns.
    unfold sanitize_component at 1.
    by rewrite trim_no_space, replace_spaces_no_space, strip_non_id_fix. }
  split; [done |]. unfold makeVoteId. by rewrite Hidem.
Qed.

Lemma makeVoteId_not_empty pid comp t : pid ≠ "" → makeVoteId pid comp t ≠ "".
Proof. intros Hpid. unfold makeVoteId. by destruct pid. Qed.

Lemma sanitizeText_trim s n :
  sanitizeText (Some (trim s)) n = sanitizeText (Some s) n.
Proof. unfold sanitizeText. simpl. by rewrite trim_idem. Qed.

(** X23: the vote route and the votes of the survey page.  For a token of
    the participant and a time stamp that is not blank, the route stores
    the vote that the page writes when the component and the two method
    ids are not blank: under the page's vote id and trial id, with the
    answer and the resolved side exactly as the page computed them.  When
    one of the three is blank the route refuses the vote with status 400
    and nothing is stored. *)
Theorem vote_row_accepted pid comp h l r p fb ts uuid :
  pid ≠ "" → trim ts ≠ "" →
  let response :=
    vote_route pid (vote_row pid comp h l r p fb) (Some ts) uuid in
  (trim comp ≠ "" ∧ trim l ≠ "" ∧ trim r ≠ "" →
   response =
     Stored
       {| stored_id := makeVoteId pid comp (next_trial_id pid comp h);
          stored_participant_id := pid;
          stored_component := comp;
          stored_trial_id := next_trial_id pid comp h;
          stored_left_method_id := l;
          stored_right_method_id := r;
          stored_preferred := p;
          stored_resolved_preferred :=
            vote_resolved pid comp (next_trial_id pid comp h) l r p;
          stored_feedback :=
            if decide (trim fb = "") then None
            else Some (sanitizeText (Some fb) 5000);
          stored_timestamp_utc := ts |}) ∧
  (trim comp = "" ∨ trim l = "" ∨ trim r = "" →
   ∃ error, response = Refused 400 error).
Proof.
  intros Hpid Hts. cbv zeta. unfold vote_route, vote_row, missing. simpl.
  rewrite (bool_decide_eq_false_2 (pid = "")) by done.
  rewrite (bool_decide_eq_true_2 (pid = pid)) by done. simpl.
  rewrite (bool_decide_eq_false_2 (trim ts = "")) by done.
  assert (bool_decide (trim (preferred_string p) = "") = false) as ->
    by (by destruct p).
  assert (vote_outcome (preferred_string p)
            (Some (side_string
                     (vote_resolved pid comp (next_trial_id pid comp h)
                        l r p)))
          = Ok (p, vote_resolved pid comp (next_trial_id pid comp h) l r p))
    as ->.
  { destruct (vote_resolved pid comp (next_trial_id pid comp h) l r p);
      by destruct p. }
  split.
  - intros (Hcomp & Hl & Hr).
    rewrite !bool_decide_eq_false_2 by
      (done || by apply makeVoteId_not_empty).
    f_equal. f_equal. case_decide; [done |]. by rewrite sanitizeText_trim.
  - intros Hblank.
    destruct (decide (trim comp = "")) as [Hc | Hc].
    { rewrite (bool_decide_eq_true_2 (trim comp = "")) by done. eauto. }
    rewrite (bool_decide_eq_false_2 (trim comp = "")) by done.
    destruct (decide (trim l = "")) as [Hl | Hl].
    { rewrite (bool_decide_eq_true_2 (trim l = "")) by done. eauto. }
    rewrite (bool_decide_eq_false_2 (trim l = "")) by done.
    destruct (decide (trim r = "")) as [Hr | Hr]; [| tauto].
    rewrite (bool_decide_eq_true_2 (trim r = "")) by done. eauto.
Qed.

Lemma vote_row_accepted_witness :
  vote_route "P00001"
    (vote_row "P00001" "cautions" [] "A" "B" PrefTie " clear ")
    (Some "2025-01-01T00:00:00.000Z") "u"
  = Stored
      {| stored_id :=
           makeVoteId "P00001" "cautions"
             (next_trial_id "P00001" "cautions" []);
         stored_participant_id := "P00001";
         stored_component := "cautions";
         stored_trial_id := next_trial_id "P00001" "cautions" [];
         stored_left_method_id := "A";
         stored_right_method_id := "B";
         stored_preferred := PrefTie;
         stored_resolved_preferred :=
           vote_resolved "P00001" "cautions"
             (next_trial_id "P00001" "cautions" []) "A" "B" PrefTie;
         stored_feedback :=
           if decide (trim " clear " = "") then None
           else Some (sanitizeText (Some " clear ") 5000);
         stored_timestamp_utc := "2025-01-01T00:00:00.000Z" |}.
Proof.
  destruct (vote_row_accepted "P00001" "cautions" [] "A" "B" PrefTie
              " clear " "2025-01-01T00:00:00.000Z" "u") as [Hstored _].
  - discriminate.
  - vm_compute. discriminate.
  - apply Hstored. vm_compute. repeat split; discriminate.
Defined.

Example vote_route_blank_component :
  vote_route "P00001" (vote_row "P00001" " " [] "A" "B" PrefLeft "")
    (Some "2025-01-01T00:00:00.000Z") "u"
  = Refused 400 "Missing field: component".
Proof. reflexivity. Qed.

Example vote_route_other_participant :
  vote_route "P00002" (vote_row "P00001" "cautions" [] "A" "B" PrefLeft "")
    (Some "2025-01-01T00:00:00.000Z") "u"
  = Refused 403 "participant_id mismatch".
Proof. reflexivity. Qed.

(** X28: the worker reads an answer without regard to case and to white
    space around it: lower-casing or trimming the text first does not
    change what [normalizePreferred] and [normalizeResolvedPreferred]
    return. *)
Theorem normalize_insensitive p :
  normalizePreferred (toLowerCase p) = normalizePreferred p ∧
  normalizePreferred (trim p) = normalizePreferred p ∧
  normalizeResolvedPreferred (toLowerCase p) = normalizeResolvedPreferred p ∧
  normalizeResolvedPreferred (trim p) = normalizeResolvedPreferred p.
Proof.
  unfold normalizePreferred, normalizeResolvedPreferred. cbv zeta.
  assert (trim (toLowerCase (trim p)) = trim (toLowerCase p)) as ->
    by (by rewrite !trim_toLowerCase, trim_idem).
  by rewrite toLowerCase_idem.
Qed.

Example normalizePreferred_synonyms :
  normalizePreferred " Top " = Ok PrefLeft ∧
  normalizePreferred "BOTTOM" = Ok PrefRight ∧
  normalizePreferred "No_Preference" = Ok PrefTie ∧
  normalizePreferred "both"
  = Err "preferred must be one of: left/right/tie (or top/bottom)".
Proof. by vm_compute. Qed.
